(** * License-plate log summariser: model and properties

    Shallow embedding of [scripts/summarize_platesv3.py] (the grouping
    variant) and of the summary builder of [scripts/summarize_platesv2.py]
    (the non-grouping variant).

    Conventions of the model.
    - Python [int] is [Z]; list indices and lengths are [nat].
    - Python [float] is modelled by the exact rational it denotes ([Q]):
      a confidence is the decimal written in the log, sums and quotients
      are exact, [round(x, 2)] is round-half-even on the exact value.
      Binary64 rounding error is outside the model.
    - A character is its code point, restricted to Latin-1 ([ascii]).
    - [plate_data] (a [defaultdict], insertion ordered) is an association
      list in insertion order; [used_plates] (a [set]) is a list used only
      through membership.
    - An uncaught Python exception is [None] in the [option] monad.
    - [int] and [float] are total on the digit strings the patterns
      capture (an interpreter limit on the size of such conversions, and
      overflow to infinity, are outside the model).
    - [difflib.SequenceMatcher] and [DataFrame.sort_values] are library
      code: the first is modelled after CPython's [Lib/difflib.py] in
      module [Difflib], the second is an interface ([PandasSort]). *)

From Stdlib Require Import String Ascii Bool Arith ZArith QArith Lia List.
From Stdlib Require Import Qround Permutation Sorted.
Import ListNotations.

Local Open Scope nat_scope.

(** ** difflib.SequenceMatcher(None, a, b) *)

Module Difflib.

Definition Match : Type := (nat * nat * nat)%type.
Definition msize (m : Match) : nat := snd m.

Section Matcher.

Variables a b : list ascii.

Let d : ascii := Ascii.zero.

(** [a[i]], [b[j]] *)
Definition geta (i : nat) : ascii := nth i a d.
Definition getb (j : nat) : ascii := nth j b d.

(** [__chain_b]: for each element of [b], the ascending list of its
    positions. *)
Fixpoint indices_from (c : ascii) (l : list ascii) (start : nat) : list nat :=
  match l with
  | [] => []
  | x :: l' =>
      if Ascii.eqb x c then start :: indices_from c l' (S start)
      else indices_from c l' (S start)
  end.

Definition indices (c : ascii) : list nat := indices_from c b 0.

(** [autojunk]: when [len(b) >= 200], an element occurring more than
    [len(b) // 100 + 1] times is "popular" and deleted from [b2j]. *)
Definition popular (c : ascii) : bool :=
  (200 <=? length b) && (length b / 100 + 1 <? length (indices c)).

Definition b2j (c : ascii) : list nat :=
  if popular c then [] else indices c.

(** [isjunk] is [None], so [bjunk] is the empty set. *)
Definition isbjunk (c : ascii) : bool := false.

(** [j2len]: a dict from positions of [b] to run lengths. *)
Definition dict : Type := list (nat * nat).

Fixpoint dget (m : dict) (j : nat) : nat :=
  match m with
  | [] => 0
  | (j', k) :: m' => if j' =? j then k else dget m' j
  end.

(** [j2len.get(j-1, 0)]; the key [-1] is never present. *)
Definition dget_prev (m : dict) (j : nat) : nat :=
  match j with
  | 0 => 0
  | S j' => dget m j'
  end.

Record fstate : Type := mkF {
  newj2len : dict;
  besti : nat;
  bestj : nat;
  bestsize : nat
}.

Section Range.

Variables alo ahi blo bhi : nat.

(** [for j in b2j.get(a[i], nothing): ...] *)
Fixpoint flm_inner (i : nat) (j2len : dict) (js : list nat) (st : fstate)
  : fstate :=
  match js with
  | [] => st
  | j :: js' =>
      if j <? blo then flm_inner i j2len js' st
      else if bhi <=? j then st
      else
        let k := dget_prev j2len j + 1 in
        let n2l := (j, k) :: newj2len st in
        if bestsize st <? k
        then flm_inner i j2len js' (mkF n2l (i + 1 - k) (j + 1 - k) k)
        else flm_inner i j2len js'
               (mkF n2l (besti st) (bestj st) (bestsize st))
  end.

(** One iteration of [for i in range(alo, ahi)]: the state carries the
    [j2len] of the previous row in [newj2len]. *)
Definition flm_row (st : fstate) (i : nat) : fstate :=
  flm_inner i (newj2len st) (b2j (geta i))
    (mkF [] (besti st) (bestj st) (bestsize st)).

Definition flm_rows : fstate :=
  fold_left flm_row (seq alo (ahi - alo)) (mkF [] alo blo 0).

(** [while besti > alo and bestj > blo and ok(b[bestj-1]) and
    a[besti-1] == b[bestj-1]: ...] *)
Fixpoint extend_back (ok : ascii -> bool) (bi bj bs : nat) : Match :=
  match bi, bj with
  | S i', S j' =>
      if (alo <? bi) && (blo <? bj) && ok (getb j')
         && Ascii.eqb (geta i') (getb j')
      then extend_back ok i' j' (S bs)
      else (bi, bj, bs)
  | _, _ => (bi, bj, bs)
  end.

(** [while besti+bestsize < ahi and bestj+bestsize < bhi and
    ok(b[bestj+bestsize]) and a[besti+bestsize] == b[bestj+bestsize]: ...];
    [fuel] is [ahi - (besti + bestsize)], the number of iterations the
    first conjunct allows. *)
Fixpoint extend_fwd (ok : ascii -> bool) (fuel bi bj bs : nat) : Match :=
  match fuel with
  | 0 => (bi, bj, bs)
  | S fuel' =>
      if (bi + bs <? ahi) && (bj + bs <? bhi) && ok (getb (bj + bs))
         && Ascii.eqb (geta (bi + bs)) (getb (bj + bs))
      then extend_fwd ok fuel' bi bj (S bs)
      else (bi, bj, bs)
  end.

Definition extend (ok : ascii -> bool) (m : Match) : Match :=
  let '(bi, bj, bs) := m in
  let '(bi1, bj1, bs1) := extend_back ok bi bj bs in
  extend_fwd ok (ahi - (bi1 + bs1)) bi1 bj1 bs1.

Definition find_longest_match : Match :=
  let st := flm_rows in
  let m1 := extend (fun c => negb (isbjunk c))
              (besti st, bestj st, bestsize st) in
  extend isbjunk m1.

End Range.

Definition range : Type := (nat * nat * nat * nat)%type.

(** The body of [while queue:] in [get_matching_blocks]; [queue.pop()]
    takes the last element, so the queue is kept reversed. *)
Definition gmb_step (rqueue : list range) (blocks : list Match)
  : option (list range * list Match) :=
  match rqueue with
  | [] => None
  | (alo, ahi, blo, bhi) :: q =>
      let '(i, j, k) := find_longest_match alo ahi blo bhi in
      if k =? 0 then Some (q, blocks)
      else
        let q1 := if (alo <? i) && (blo <? j)
                  then (alo, i, blo, j) :: q else q in
        let q2 := if (i + k <? ahi) && (j + k <? bhi)
                  then (i + k, ahi, j + k, bhi) :: q1 else q1 in
        Some (q2, blocks ++ [(i, j, k)])
  end.

Fixpoint gmb_loop (fuel : nat) (rqueue : list range) (blocks : list Match)
  : list Match :=
  match fuel with
  | 0 => blocks
  | S fuel' =>
      match gmb_step rqueue blocks with
      | None => blocks
      | Some (q', blocks') => gmb_loop fuel' q' blocks'
      end
  end.

(** The blocks appended by the [while queue:] loop.  The loop runs at
    most [2 * len(a) + 1] times (lemma [gmb_loop_fuel]). *)
Definition matching_blocks : list Match :=
  gmb_loop (2 * length a + 1) [(0, length a, 0, length b)] [].

(** [matching_blocks.sort()]: tuples are compared lexicographically. *)
Definition match_leb (m1 m2 : Match) : bool :=
  let '(i1, j1, k1) := m1 in
  let '(i2, j2, k2) := m2 in
  (i1 <? i2) || ((i1 =? i2) && ((j1 <? j2) || ((j1 =? j2) && (k1 <=? k2)))).

Fixpoint insert_match (m : Match) (l : list Match) : list Match :=
  match l with
  | [] => [m]
  | x :: l' => if match_leb m x then m :: l else x :: insert_match m l'
  end.

Definition sort_matches (l : list Match) : list Match :=
  fold_right insert_match [] l.

(** The body of [for i2, j2, k2 in matching_blocks:], which merges
    adjacent blocks; the state is [(i1, j1, k1)] and [non_adjacent]. *)
Definition collapse_step (st : Match * list Match) (m2 : Match)
  : Match * list Match :=
  let '((i1, j1, k1), non_adjacent) := st in
  let '(i2, j2, k2) := m2 in
  if (i1 + k1 =? i2) && (j1 + k1 =? j2)
  then ((i1, j1, k1 + k2), non_adjacent)
  else ((i2, j2, k2),
        if k1 =? 0 then non_adjacent else non_adjacent ++ [(i1, j1, k1)]).

Definition get_matching_blocks : list Match :=
  let '((i1, j1, k1), non_adjacent) :=
    fold_left collapse_step (sort_matches matching_blocks) ((0, 0, 0), []) in
  (if k1 =? 0 then non_adjacent else non_adjacent ++ [(i1, j1, k1)])
  ++ [(length a, length b, 0)].

(** [matches = sum(triple[-1] for triple in self.get_matching_blocks())] *)
Definition matches : nat :=
  fold_right (fun m s => msize m + s) 0 get_matching_blocks.

(** [_calculate_ratio(matches, len(a) + len(b))] *)
Definition ratio : Q :=
  let len := length a + length b in
  if len =? 0 then 1%Q
  else (2 * inject_Z (Z.of_nat matches) / inject_Z (Z.of_nat len))%Q.

End Matcher.

End Difflib.

(** [calculate_similarity(plate1, plate2)] *)
Definition calculate_similarity (plate1 plate2 : string) : Q :=
  (Difflib.ratio (list_ascii_of_string plate1) (list_ascii_of_string plate2)
   * 100)%Q.


(** ** Characters, [str.strip] and the two regular expressions *)

Definition isspace (c : ascii) : bool :=
  let n := nat_of_ascii c in
  ((9 <=? n) && (n <=? 13)) || ((28 <=? n) && (n <=? 32))
  || (n =? 133) || (n =? 160).

Definition isdigit (c : ascii) : bool :=
  let n := nat_of_ascii c in (48 <=? n) && (n <=? 57).

(** [[A-Z0-9]] *)
Definition isplatechar (c : ascii) : bool :=
  let n := nat_of_ascii c in ((65 <=? n) && (n <=? 90)) || isdigit c.

Local Open Scope string_scope.

Fixpoint lstrip (s : string) : string :=
  match s with
  | "" => ""
  | String c s' => if isspace c then lstrip s' else s
  end.

Fixpoint rstrip (s : string) : string :=
  match s with
  | "" => ""
  | String c s' =>
      match rstrip s' with
      | "" => if isspace c then "" else String c ""
      | r => String c r
      end
  end.

Definition strip (s : string) : string := rstrip (lstrip s).

(** Greedy [P*]: the longest prefix whose characters satisfy [P], and the
    rest. *)
Fixpoint span (P : ascii -> bool) (s : string) : string * string :=
  match s with
  | "" => ("", "")
  | String c s' =>
      if P c then let '(x, r) := span P s' in (String c x, r)
      else ("", s)
  end.

(** A literal: the rest of [s] after the prefix [lit]. *)
Fixpoint literal (lit s : string) : option string :=
  match lit, s with
  | "", _ => Some s
  | String c lit', String c' s' =>
      if Ascii.eqb c c' then literal lit' s' else None
  | String _ _, "" => None
  end.

(** [re.match(r'Frame:\s*(\d+)', line)]: [group(1)] on a match.  The
    classes of adjacent greedy quantifiers are disjoint, so the greedy
    choice is the only one that can match. *)
Definition frame_match (line : string) : option string :=
  match literal "Frame:" line with
  | None => None
  | Some r =>
      let '(_, r1) := span isspace r in
      let '(ds, _) := span isdigit r1 in
      match ds with
      | "" => None
      | _ => Some ds
      end
  end.

(** [re.match(plate_pattern, line)], where the pattern is optional
    white space, a dash, optional white space, group 1 [[A-Z0-9]+], white
    space (at least one), the literal [confidence:], optional white space
    and group 2: digits (at least one), an optional dot, optional digits.
    The result is [group(1)] and [group(2)], the latter as its integer
    digits, whether the dot is present, and its fraction digits. *)
Definition plate_match (line : string)
  : option (string * (string * bool * string)) :=
  let '(_, r0) := span isspace line in
  match literal "-" r0 with
  | None => None
  | Some r1 =>
      let '(_, r2) := span isspace r1 in
      let '(plate, r3) := span isplatechar r2 in
      match plate with
      | "" => None
      | _ =>
          let '(ws, r4) := span isspace r3 in
          match ws with
          | "" => None
          | _ =>
              match literal "confidence:" r4 with
              | None => None
              | Some r5 =>
                  let '(_, r6) := span isspace r5 in
                  let '(ip, r7) := span isdigit r6 in
                  match ip with
                  | "" => None
                  | _ =>
                      match literal "." r7 with
                      | Some r8 =>
                          let '(fp, _) := span isdigit r8 in
                          Some (plate, (ip, true, fp))
                      | None => Some (plate, (ip, false, ""))
                      end
                  end
              end
          end
      end
  end.

Local Open Scope Z_scope.

Definition digit_value (c : ascii) : Z := Z.of_nat (nat_of_ascii c) - 48.

Fixpoint int_acc (acc : Z) (ds : string) : Z :=
  match ds with
  | EmptyString => acc
  | String c ds' => int_acc (10 * acc + digit_value c) ds'
  end.

(** [int(ds)] for a string of decimal digits. *)
Definition int_of_digits (ds : string) : Z := int_acc 0 ds.

Fixpoint pow10 (n : nat) : positive :=
  match n with
  | O => 1%positive
  | S n' => (10 * pow10 n')%positive
  end.

(** [float(group(2))]: the decimal [ip.fp] as an exact rational. *)
Definition float_of_decimal (g : string * bool * string) : Q :=
  let '(ip, _, fp) := g in
  Qmake (int_of_digits (ip ++ fp)) (pow10 (String.length fp)).

(** ** The aggregation loop of [parse_license_plate_log] *)

Record record : Type := mkRecord {
  confidences : list Q;
  frames : list Z
}.

Definition plate_data : Type := list (string * record).

Definition empty_record : record := mkRecord [] [].

Definition keys (pd : plate_data) : list string := map fst pd.

Fixpoint mem (x : string) (l : list string) : bool :=
  match l with
  | [] => false
  | y :: l' => String.eqb y x || mem x l'
  end.

(** [defaultdict.__missing__]: reading an absent key inserts the default
    record at the end. *)
Definition touch (pd : plate_data) (k : string) : plate_data :=
  if mem k (keys pd) then pd else (pd ++ [(k, empty_record)])%list.

Fixpoint update (pd : plate_data) (k : string) (f : record -> record)
  : plate_data :=
  match pd with
  | [] => []
  | (k', r) :: pd' =>
      if String.eqb k' k then (k', f r) :: pd'
      else (k', r) :: update pd' k f
  end.

(** [plate_data[k]] as a value.  Every key read by the code below is
    taken from [plate_data.keys()], so the default is never inserted
    there. *)
Fixpoint getitem (pd : plate_data) (k : string) : record :=
  match pd with
  | [] => empty_record
  | (k', r) :: pd' => if String.eqb k' k then r else getitem pd' k
  end.

(** [plate_data[k]['confidences'].append(c)] *)
Definition append_confidence (pd : plate_data) (k : string) (c : Q)
  : plate_data :=
  update (touch pd k) k
    (fun r => mkRecord (confidences r ++ [c]) (frames r)).

(** [plate_data[k]['frames'].append(f)] *)
Definition append_frame (pd : plate_data) (k : string) (f : Z)
  : plate_data :=
  update (touch pd k) k
    (fun r => mkRecord (confidences r) (frames r ++ [f])).

Definition parse_state : Type := (option Z * plate_data)%type.

(** The body of [for line in file:]. *)
Definition parse_line (st : parse_state) (raw : string) : parse_state :=
  let '(current_frame, pd) := st in
  let line := strip raw in
  match frame_match line with
  | Some ds => (Some (int_of_digits ds), pd)
  | None =>
      match plate_match line, current_frame with
      | Some (plate_number, g2), Some frame =>
          let confidence := float_of_decimal g2 in
          (current_frame,
           append_frame (append_confidence pd plate_number confidence)
             plate_number frame)
      | _, _ => st
      end
  end.

Definition parse_lines (lines : list string) : parse_state :=
  fold_left parse_line lines (None, []).

(** The events a [plate_data] holds: per text, its confidences paired with
    its frames. *)
Definition events_of (pd : plate_data) : list (Z * string * Q) :=
  flat_map (fun '(p, r) =>
              map (fun '(c, f) => (f, p, c))
                (combine (confidences r) (frames r))) pd.

(** ** [group_similar_plates] *)

Local Open Scope Q_scope.

(** [sum(l)]: a left fold from the integer 0. *)
Definition sum_list (l : list Q) : Q := fold_left Qplus l 0.

(** [sum(l) / len(l)]; [None] is the [ZeroDivisionError] of an empty
    list. *)
Definition mean (l : list Q) : option Q :=
  match l with
  | [] => None
  | _ => Some (sum_list l / inject_Z (Z.of_nat (List.length l)))
  end.

Definition Qlt_bool (x y : Q) : bool := negb (Qle_bool y x).

Record group : Type := mkGroup {
  main_plate : string;
  similar_plates : list string;
  all_confidences : list Q;
  all_frames : list Z
}.

(** The variables of the inner loop. *)
Record scan : Type := mkScan {
  similar_group : list string;
  similar_data : record;
  used_plates : list string
}.

(** The body of [for j, other_plate in enumerate(plates[i+1:], i+1):]. *)
Definition scan_step (pd : plate_data) (similarity_threshold : Q)
    (main_plate : string) (st : scan) (other_plate : string) : scan :=
  if mem other_plate (used_plates st) then st
  else
    let similarity := calculate_similarity main_plate other_plate in
    if Qle_bool similarity_threshold similarity then
      mkScan (similar_group st ++ [other_plate])
        (mkRecord
           (confidences (similar_data st)
              ++ confidences (getitem pd other_plate))
           (frames (similar_data st) ++ frames (getitem pd other_plate)))
        (other_plate :: used_plates st)
    else st.

(** The inner loop, from the seed [main_plate] over [rest = plates[i+1:]]. *)
Definition scan_from (pd : plate_data) (similarity_threshold : Q)
    (main_plate : string) (rest used : list string) : scan :=
  fold_left (scan_step pd similarity_threshold main_plate) rest
    (mkScan [main_plate]
       (mkRecord (confidences (getitem pd main_plate))
          (frames (getitem pd main_plate)))
       used).

Definition mean_confidence (pd : plate_data) (plate : string) : option Q :=
  mean (confidences (getitem pd plate)).

(** The body of [for plate in similar_group[1:]:]. *)
Definition best_step (pd : plate_data) (acc : option (string * Q))
    (plate : string) : option (string * Q) :=
  match acc with
  | None => None
  | Some (best_plate, best_avg_confidence) =>
      match mean_confidence pd plate with
      | None => None
      | Some avg_conf =>
          if Qlt_bool best_avg_confidence avg_conf
          then Some (plate, avg_conf)
          else Some (best_plate, best_avg_confidence)
      end
  end.

(** [best_plate] and [best_avg_confidence] after the selection loop. *)
Definition select_best (pd : plate_data) (similar_group : list string)
  : option (string * Q) :=
  match similar_group with
  | [] => None
  | main_plate :: others =>
      match mean_confidence pd main_plate with
      | None => None
      | Some avg => fold_left (best_step pd) others (Some (main_plate, avg))
      end
  end.

(** [[p for p in similar_group if p != best_plate]] *)
Definition other_plates (similar_group : list string) (best_plate : string)
  : list string :=
  filter (fun p => negb (String.eqb p best_plate)) similar_group.

(** The outer loop [for i, main_plate in enumerate(plates):]; [plates] is
    the part of the key list not yet visited, so its tail is
    [plates[i+1:]]. *)
Fixpoint group_loop (pd : plate_data) (similarity_threshold : Q)
    (plates used : list string) (grouped_results : list group)
  : option (list group) :=
  match plates with
  | [] => Some grouped_results
  | main_plate :: rest =>
      if mem main_plate used
      then group_loop pd similarity_threshold rest used grouped_results
      else
        let st := scan_from pd similarity_threshold main_plate rest used in
        let used' := main_plate :: used_plates st in
        match select_best pd (similar_group st) with
        | None => None
        | Some (best_plate, _) =>
            group_loop pd similarity_threshold rest used'
              (grouped_results ++
                 [mkGroup best_plate
                    (other_plates (similar_group st) best_plate)
                    (confidences (similar_data st))
                    (frames (similar_data st))])
        end
  end.

Definition group_similar_plates (pd : plate_data) (similarity_threshold : Q)
  : option (list group) :=
  group_loop pd similarity_threshold (keys pd) [] [].

(** ** Summary rows *)

(** [round(x)] to an integer, ties to even. *)
Definition round_half_even (x : Q) : Z :=
  let fl := Qfloor x in
  match Qcompare (x - inject_Z fl) (1 # 2) with
  | Lt => fl
  | Gt => (fl + 1)%Z
  | Eq => if Z.even fl then fl else (fl + 1)%Z
  end.

(** [round(x, 2)] *)
Definition round2 (x : Q) : Q := Qmake (round_half_even (x * 100)) 100.

(** [min(l)] and [max(l)]; [None] is the [ValueError] of an empty list. *)
Definition list_min (l : list Z) : option Z :=
  match l with
  | [] => None
  | x :: l' => Some (fold_left Z.min l' x)
  end.

Definition list_max (l : list Z) : option Z :=
  match l with
  | [] => None
  | x :: l' => Some (fold_left Z.max l' x)
  end.

(** [', '.join(l)] *)
Fixpoint join (l : list string) : string :=
  match l with
  | [] => ""
  | [x] => x
  | x :: l' => x ++ ", " ++ join l'
  end.

(** One row of the v3 table. *)
Record row : Type := mkRow {
  plate_found : string;
  similar_plates_str : string;
  confidence_level : Q;
  first_frame : Z;
  last_frame : Z;
  total_detections : nat
}.

(** The statistics shared by both variants; [None] is an exception. *)
Definition stats (cs : list Q) (fs : list Z) : option (Q * Z * Z * nat) :=
  match mean cs, list_min fs, list_max fs with
  | Some m, Some lo, Some hi => Some (round2 m, lo, hi, List.length fs)
  | _, _, _ => None
  end.

(** The body of [for group in grouped_plates:]. *)
Definition results_step (acc : option (list row)) (g : group)
  : option (list row) :=
  match acc with
  | None => None
  | Some results =>
      match all_frames g with
      | [] => Some results
      | _ =>
          match stats (all_confidences g) (all_frames g) with
          | None => None
          | Some (cl, lo, hi, n) =>
              Some (results ++
                      [mkRow (main_plate g) (join (similar_plates g))
                         cl lo hi n])%list
          end
      end
  end.

Definition build_results (grouped_plates : list group) : option (list row) :=
  fold_left results_step grouped_plates (Some []).

(** ** [DataFrame.sort_values('confidence_level', ascending=False)]

    pandas sorts one column through an index permutation computed from
    the column's values alone ([nargsort]), and takes the rows in that
    order.  The default [kind] is [quicksort], for which pandas documents
    no stability; the interface therefore promises a permutation of the
    positions that puts the keys in descending order, and nothing about
    ties. *)

Definition take {A : Type} (rows : list A) (indexer : list nat) : list A :=
  flat_map (fun i => match nth_error rows i with
                     | Some r => [r]
                     | None => []
                     end) indexer.

Definition descending (ks : list Q) : Prop :=
  Sorted (fun x y => y <= x) ks.

Class PandasSort : Type := {
  argsort_desc : list Q -> list nat;
  argsort_perm :
    forall ks, Permutation (argsort_desc ks) (seq 0 (List.length ks));
  argsort_sorted :
    forall ks, descending (take ks (argsort_desc ks))
}.

Definition sort_values {S : PandasSort} {A : Type} (key : A -> Q)
    (rows : list A) : list A :=
  take rows (argsort_desc (map key rows)).

(** Two sorts that meet the interface and differ on ties: insertion of
    the positions [0, 1, ...] in turn, position [i] going in front of the
    first [j] with [before key_i key_j]. *)
Fixpoint insert_by (before : Q -> Q -> bool) (ks : list Q) (i : nat)
    (l : list nat) : list nat :=
  match l with
  | [] => [i]
  | j :: l' =>
      if before (nth i ks 0) (nth j ks 0) then i :: l
      else j :: insert_by before ks i l'
  end.

Definition argsort_by (before : Q -> Q -> bool) (ks : list Q) : list nat :=
  fold_left (fun acc i => insert_by before ks i acc)
    (seq 0 (List.length ks)) [].

(** Descending, ties in input order (a stable sort). *)
Definition argsort_desc_stable : list Q -> list nat :=
  argsort_by (fun x y => Qlt_bool y x).


(** ** Reading the file, console and file effects *)

(** What [open(file_path)] followed by [for line in file] delivers:
    [FileNotFoundError], another exception after the lines [read] were
    delivered (none when [open] itself fails), or all the lines. *)
Inductive read_outcome : Type :=
| FileNotFound
| ReadError (read : list string)
| ReadOk (lines : list string).

Definition filesystem : Type := string -> read_outcome.

Definition DataFrame : Type := list row.

Inductive effect : Type :=
| PrintParsing (input_file : string)
| PrintThreshold (similarity_threshold : Q)
| PrintFileNotFound (file_path : string)
| PrintReadError
| PrintNoData
| PrintSummary (df : DataFrame)
| SaveResults (df : DataFrame) (output_file : string)
| SaveReport (df : DataFrame) (input_file report_file : string)
    (similarity_threshold : Q)
| PrintStatistics (df : DataFrame).

(** A computation that performs effects and returns a value or raises. *)
Definition io (A : Type) : Type := (list effect * option A)%type.

Definition ret {A : Type} (x : A) : io A := ([], Some x).

Definition bind {A B : Type} (m : io A) (f : A -> io B) : io B :=
  match m with
  | (t, None) => (t, None)
  | (t, Some x) => let '(t', r) := f x in ((t ++ t')%list, r)
  end.

Definition emit (e : effect) : io unit := ([e], Some tt).

(** An exception that nothing catches. *)
Definition lift {A : Type} (o : option A) : io A := ([], o).

Notation "x <- m ;; k" := (bind m (fun x => k))
  (at level 61, m at next level, right associativity).
Notation "m ;;; k" := (bind m (fun _ => k))
  (at level 61, right associativity).

(** [parse_license_plate_log(file_path, similarity_threshold)] of the
    grouping variant. *)
Definition parse_license_plate_log {S : PandasSort} (fs : filesystem)
    (file_path : string) (similarity_threshold : Q) : io DataFrame :=
  match fs file_path with
  | FileNotFound => emit (PrintFileNotFound file_path) ;;; ret []
  | ReadError read =>
      let _ := parse_lines read in
      emit PrintReadError ;;; ret []
  | ReadOk lines =>
      let '(_, pd) := parse_lines lines in
      grouped_plates <- lift (group_similar_plates pd similarity_threshold) ;;
      results <- lift (build_results grouped_plates) ;;
      match results with
      | [] => ret []
      | _ => ret (sort_values confidence_level results)
      end
  end.

(** The non-grouping variant, [scripts/summarize_platesv2.py]; its reading
    and aggregation loop is the same text as the grouping variant's. *)
Module V2.

Record row : Type := mkRow {
  plate_found : string;
  confidence_level : Q;
  first_frame : Z;
  last_frame : Z;
  total_detections : nat
}.

(** The body of [for plate, data in plate_data.items():]. *)
Definition results_step (acc : option (list row)) (item : string * record)
  : option (list row) :=
  match acc with
  | None => None
  | Some results =>
      let '(plate, data) := item in
      match frames data with
      | [] => Some results
      | _ =>
          match stats (confidences data) (frames data) with
          | None => None
          | Some (cl, lo, hi, n) =>
              Some (results ++ [mkRow plate cl lo hi n])%list
          end
      end
  end.

Definition build_results (pd : plate_data) : option (list row) :=
  fold_left results_step pd (Some []).

(** [parse_license_plate_log(file_path)] of the non-grouping variant. *)
Definition parse_license_plate_log {S : PandasSort} (fs : filesystem)
    (file_path : string) : io (list row) :=
  match fs file_path with
  | FileNotFound => emit (PrintFileNotFound file_path) ;;; ret []
  | ReadError read =>
      let _ := parse_lines read in
      emit PrintReadError ;;; ret []
  | ReadOk lines =>
      let '(_, pd) := parse_lines lines in
      results <- lift (build_results pd) ;;
      match results with
      | [] => ret []
      | _ => ret (sort_values confidence_level results)
      end
  end.

End V2.

(** The columns the two variants share. *)
Definition common_columns (r : row) : V2.row :=
  V2.mkRow (plate_found r) (confidence_level r) (first_frame r)
    (last_frame r) (total_detections r).

(** ** [main], from the point where [input_file] and
    [similarity_threshold] are resolved *)

Fixpoint endswith (s suffix : string) : bool :=
  String.eqb s suffix
  || match s with
     | "" => false
     | String _ s' => endswith s' suffix
     end.

(** [s.replace(old, new)] for a non-empty [old]; [skip] counts the
    characters of an occurrence still to pass over. *)
Fixpoint replace_from (old new s : string) (skip : nat) : string :=
  match s with
  | "" => ""
  | String c s' =>
      match skip with
      | S k => replace_from old new s' k
      | O =>
          if String.prefix old s
          then new ++ replace_from old new s' (String.length old - 1)
          else String c (replace_from old new s' 0)
      end
  end.

Definition replace (s old new : string) : string := replace_from old new s 0.

Definition output_names (input_file : string) : string * string :=
  if endswith input_file ".txt"
  then (replace input_file ".txt" "_summary.csv",
        replace input_file ".txt" "_report.txt")
  else (input_file ++ "_summary.csv", input_file ++ "_report.txt").

Definition main {S : PandasSort} (fs : filesystem) (input_file : string)
    (similarity_threshold : Q) : io unit :=
  let '(output_file, report_file) := output_names input_file in
  emit (PrintParsing input_file) ;;;
  emit (PrintThreshold similarity_threshold) ;;;
  results_df <- parse_license_plate_log fs input_file similarity_threshold ;;
  match results_df with
  | [] => emit PrintNoData
  | _ =>
      emit (PrintSummary results_df) ;;;
      emit (SaveResults results_df output_file) ;;;
      emit (SaveReport results_df input_file report_file
              similarity_threshold) ;;;
      emit (PrintStatistics results_df)
  end.

(** The effects that write an output file. *)
Definition writes_file (e : effect) : bool :=
  match e with
  | SaveResults _ _ | SaveReport _ _ _ _ => true
  | _ => false
  end.

(** * Properties *)

(** ** The sequence matcher *)

Module DifflibFacts.
Import Difflib.

Local Open Scope nat_scope.

Lemma indices_from_In (c : ascii) (l : list ascii) (s j : nat) :
  In j (indices_from c l s) <->
  s <= j /\ j < s + List.length l /\ nth (j - s) l Ascii.zero = c.
Proof.
  revert s. induction l as [|x l IH]; intros s; simpl.
  - split; [tauto | lia].
  - destruct (Ascii.eqb_spec x c) as [E|E]; simpl; rewrite IH.
    + split.
      * intros [<-|(H1 & H2 & H3)].
        -- rewrite Nat.sub_diag. repeat split; try lia. exact E.
        -- repeat split; try lia.
           destruct (j - s) as [|m] eqn:Em; [lia|].
           replace (j - S s) with m in H3 by lia. exact H3.
      * intros (H1 & H2 & H3).
        destruct (Nat.eq_dec s j) as [->|N]; [now left|right].
        repeat split; try lia.
        destruct (j - s) as [|m] eqn:Em; [lia|].
        replace (j - S s) with m by lia. exact H3.
    + split.
      * intros (H1 & H2 & H3). repeat split; try lia.
        destruct (j - s) as [|m] eqn:Em; [lia|].
        replace (j - S s) with m in H3 by lia. exact H3.
      * intros (H1 & H2 & H3).
        destruct (j - s) as [|m] eqn:Em.
        -- exfalso. apply E. exact H3.
        -- repeat split; try lia.
           replace (j - S s) with m by lia. exact H3.
Qed.

Lemma indices_from_sorted (c : ascii) (l : list ascii) (s : nat) :
  StronglySorted lt (indices_from c l s).
Proof.
  revert s. induction l as [|x l IH]; intros s; simpl.
  - constructor.
  - destruct (Ascii.eqb x c).
    + constructor; [apply IH|].
      apply Forall_forall. intros j Hj.
      apply indices_from_In in Hj. lia.
    + apply IH.
Qed.

Lemma b2j_In (b : list ascii) (c : ascii) (j : nat) :
  In j (b2j b c) -> j < List.length b /\ getb b j = c.
Proof.
  unfold b2j, indices. destruct (popular b c); [intros []|].
  intros H. apply indices_from_In in H.
  rewrite Nat.sub_0_r in H. unfold getb. lia || (split; [lia|tauto]).
Qed.

Lemma b2j_sorted (b : list ascii) (c : ascii) : StronglySorted lt (b2j b c).
Proof.
  unfold b2j, indices. destruct (popular b c).
  - constructor.
  - apply indices_from_sorted.
Qed.

Lemma b2j_unpopular (b : list ascii) (c : ascii) (j : nat) :
  popular b c = false -> j < List.length b -> getb b j = c -> In j (b2j b c).
Proof.
  intros Hp Hj Hc. unfold b2j, indices. rewrite Hp.
  apply indices_from_In. rewrite Nat.sub_0_r. unfold getb in Hc.
  repeat split; try lia. exact Hc.
Qed.

(** A block [(i, j, k)] lies in the window and its two sides agree. *)
Definition match_ok (a b : list ascii) (alo ahi blo bhi : nat) (m : Match)
  : Prop :=
  let '(i, j, k) := m in
  alo <= i /\ i + k <= ahi /\ blo <= j /\ j + k <= bhi /\
  forall t, t < k -> geta a (i + t) = getb b (j + t).

Section FindLongestMatch.

Variables a b : list ascii.
Variables alo ahi blo bhi : nat.
Hypothesis Ha : alo <= ahi.
Hypothesis Hb : blo <= bhi.

(** The previous row's [j2len], seen from row [i]: every run it records
    ends at row [i - 1], stays in the window and is a common run. *)
Definition dict_ok (i : nat) (D : dict) : Prop :=
  forall j, dget D j <= i - alo /\ dget D j <= j + 1 - blo /\
            forall t, t < dget D j -> geta a (i - 1 - t) = getb b (j - t).

Definition best_ok (st : fstate) : Prop :=
  match_ok a b alo ahi blo bhi (besti st, bestj st, bestsize st).

Lemma flm_inner_ok (i : nat) (D : dict) (js : list nat) (st : fstate) :
  alo <= i -> i < ahi -> dict_ok i D ->
  (forall j, In j js -> getb b j = geta a i) ->
  dict_ok (S i) (newj2len st) -> best_ok st ->
  let st' := flm_inner blo bhi i D js st in
  dict_ok (S i) (newj2len st') /\ best_ok st'.
Proof.
  intros Hi1 Hi2 HD. revert st.
  induction js as [|j js IH]; intros st Hjs Hn Hbest; simpl.
  - split; assumption.
  - destruct (Nat.ltb_spec j blo) as [Hlo|Hlo].
    { apply IH; auto. intros j' Hj'. apply Hjs. now right. }
    destruct (Nat.leb_spec bhi j) as [Hhi|Hhi].
    { split; assumption. }
    assert (Hk : dget_prev D j <= i - alo /\ dget_prev D j <= j - blo /\
                 forall t, t < dget_prev D j ->
                           geta a (i - 1 - t) = getb b (j - 1 - t)).
    { destruct j as [|j']; cbn [dget_prev].
      - repeat split; lia.
      - destruct (HD j') as (H1 & H2 & H3). repeat split; try lia.
        intros t Ht. rewrite H3 by exact Ht. f_equal. lia. }
    destruct Hk as (Hk1 & Hk2 & Hk3).
    assert (Hrun : forall t, t < dget_prev D j + 1 ->
                             geta a (i - t) = getb b (j - t)).
    { intros [|t] Ht.
      - rewrite !Nat.sub_0_r. symmetry. apply Hjs. now left.
      - replace (i - S t) with (i - 1 - t) by lia.
        replace (j - S t) with (j - 1 - t) by lia. apply Hk3. lia. }
    assert (Hn' : dict_ok (S i) ((j, dget_prev D j + 1) :: newj2len st)).
    { intros j0. cbn [dget]. destruct (Nat.eqb_spec j j0) as [->|Hne].
      - repeat split; try lia. intros t Ht.
        replace (S i - 1 - t) with (i - t) by lia. apply Hrun. exact Ht.
      - apply Hn. }
    destruct (Nat.ltb_spec (bestsize st) (dget_prev D j + 1)) as [Hgt|Hgt].
    + apply IH; auto.
      * intros j' Hj'. apply Hjs. now right.
      * unfold best_ok, match_ok. simpl. repeat split; try lia.
        intros t Ht.
        replace (i + 1 - (dget_prev D j + 1) + t)
          with (i - (dget_prev D j - t)) by lia.
        replace (j + 1 - (dget_prev D j + 1) + t)
          with (j - (dget_prev D j - t)) by lia.
        apply Hrun. lia.
    + apply IH; auto.
      intros j' Hj'. apply Hjs. now right.
Qed.

Lemma flm_row_ok (i : nat) (st : fstate) :
  alo <= i -> i < ahi -> dict_ok i (newj2len st) -> best_ok st ->
  dict_ok (S i) (newj2len (flm_row a b blo bhi st i))
  /\ best_ok (flm_row a b blo bhi st i).
Proof.
  intros Hi1 Hi2 HD Hbest. unfold flm_row.
  apply flm_inner_ok; auto.
  - intros j Hj. apply b2j_In in Hj. tauto.
  - intros j. simpl. repeat split; lia.
Qed.

Lemma flm_fold_ok (n i : nat) (st : fstate) :
  alo <= i -> i + n <= ahi -> dict_ok i (newj2len st) -> best_ok st ->
  best_ok (fold_left (flm_row a b blo bhi) (seq i n) st).
Proof.
  revert i st. induction n as [|n IH]; intros i st Hi1 Hi2 HD Hbest; simpl.
  - exact Hbest.
  - destruct (flm_row_ok i st) as [HD' Hb']; auto; try lia.
    apply IH; auto; lia.
Qed.

Lemma flm_rows_ok : best_ok (flm_rows a b alo ahi blo bhi).
Proof.
  unfold flm_rows. apply flm_fold_ok; try lia.
  - intros j. simpl. repeat split; lia.
  - unfold best_ok, match_ok. simpl. repeat split; lia.
Qed.

Lemma extend_back_ok (ok : ascii -> bool) (bi bj bs : nat) :
  match_ok a b alo ahi blo bhi (bi, bj, bs) ->
  match_ok a b alo ahi blo bhi (extend_back a b alo blo ok bi bj bs).
Proof.
  revert bj bs. induction bi as [|i' IH]; intros bj bs H; simpl; [exact H|].
  destruct bj as [|j']; [exact H|].
  destruct ((alo <? S i') && (blo <? S j') && ok (getb b j')
            && Ascii.eqb (geta a i') (getb b j')) eqn:E; [|exact H].
  apply andb_prop in E. destruct E as [E E4].
  apply andb_prop in E. destruct E as [E E3].
  apply andb_prop in E. destruct E as [E1 E2].
  apply Nat.ltb_lt in E1. apply Nat.ltb_lt in E2.
  apply Ascii.eqb_eq in E4.
  apply IH. unfold match_ok in *. destruct H as (H1 & H2 & H3 & H4 & H5).
  repeat split; try lia.
  intros [|t] Ht.
  - rewrite !Nat.add_0_r. exact E4.
  - replace (i' + S t) with (S i' + t) by lia.
    replace (j' + S t) with (S j' + t) by lia. apply H5. lia.
Qed.

Lemma extend_fwd_ok (ok : ascii -> bool) (fuel bi bj bs : nat) :
  match_ok a b alo ahi blo bhi (bi, bj, bs) ->
  match_ok a b alo ahi blo bhi (extend_fwd a b ahi bhi ok fuel bi bj bs).
Proof.
  revert bs. induction fuel as [|fuel IH]; intros bs H; simpl; [exact H|].
  destruct ((bi + bs <? ahi) && (bj + bs <? bhi) && ok (getb b (bj + bs))
            && Ascii.eqb (geta a (bi + bs)) (getb b (bj + bs))) eqn:E;
    [|exact H].
  apply andb_prop in E. destruct E as [E E4].
  apply andb_prop in E. destruct E as [E E3].
  apply andb_prop in E. destruct E as [E1 E2].
  apply Nat.ltb_lt in E1. apply Nat.ltb_lt in E2.
  apply Ascii.eqb_eq in E4.
  apply IH. unfold match_ok in *. destruct H as (H1 & H2 & H3 & H4 & H5).
  repeat split; try lia.
  intros t Ht. destruct (Nat.eq_dec t bs) as [->|N]; [exact E4|].
  apply H5. lia.
Qed.

Lemma extend_ok (ok : ascii -> bool) (m : Match) :
  match_ok a b alo ahi blo bhi m ->
  match_ok a b alo ahi blo bhi (extend a b alo ahi blo bhi ok m).
Proof.
  destruct m as [[bi bj] bs]. intros H. unfold extend.
  pose proof (extend_back_ok ok bi bj bs H) as H1.
  destruct (extend_back a b alo blo ok bi bj bs) as [[bi1 bj1] bs1].
  apply extend_fwd_ok. exact H1.
Qed.

Lemma find_longest_match_ok :
  match_ok a b alo ahi blo bhi (find_longest_match a b alo ahi blo bhi).
Proof.
  unfold find_longest_match. apply extend_ok. apply extend_ok.
  apply flm_rows_ok.
Qed.

End FindLongestMatch.

(** *** The block loop: termination and the budget of matched elements *)

Definition total (bl : list Match) : nat :=
  fold_right (fun m s => msize m + s) 0 bl.

Definition range_ok (r : range) : Prop :=
  let '(alo, ahi, blo, bhi) := r in alo <= ahi /\ blo <= bhi.

(** Elements of both sequences still inside queued windows. *)
Definition rsize (r : range) : nat :=
  let '(alo, ahi, blo, bhi) := r in (ahi - alo) + (bhi - blo).

Definition qsize (q : list range) : nat :=
  fold_right (fun r s => rsize r + s) 0 q.

(** A bound on the iterations a queue still needs. *)
Definition rsteps (r : range) : nat :=
  let '(alo, ahi, _, _) := r in 2 * (ahi - alo) + 1.

Definition qsteps (q : list range) : nat :=
  fold_right (fun r s => rsteps r + s) 0 q.

(** The two sides of a window are the same sequence. *)
Definition range_eq (a b : list ascii) (r : range) : Prop :=
  let '(alo, ahi, blo, bhi) := r in
  ahi - alo = bhi - blo /\
  forall t, t < ahi - alo -> geta a (alo + t) = getb b (blo + t).

Lemma total_append (bl bl' : list Match) :
  total (bl ++ bl') = total bl + total bl'.
Proof.
  induction bl as [|x bl IH]; simpl; [lia|]. rewrite IH. lia.
Qed.

Lemma total_app (bl : list Match) (m : Match) :
  total (bl ++ [m]) = total bl + msize m.
Proof. rewrite total_append. simpl. lia. Qed.

(** Sorting the blocks, merging adjacent ones and appending the sentinel
    leave the number of matched elements unchanged. *)
Lemma total_insert_match (m : Match) (l : list Match) :
  total (insert_match m l) = msize m + total l.
Proof.
  induction l as [|x l IH]; simpl; [reflexivity|].
  destruct (match_leb m x); simpl; [reflexivity|]. rewrite IH. lia.
Qed.

Lemma total_sort_matches (l : list Match) : total (sort_matches l) = total l.
Proof.
  induction l as [|x l IH]; simpl; [reflexivity|].
  rewrite total_insert_match, IH. reflexivity.
Qed.

Lemma total_collapse (l : list Match) (cur : Match) (acc : list Match) :
  total (snd (fold_left collapse_step l (cur, acc)))
  + msize (fst (fold_left collapse_step l (cur, acc)))
  = total acc + msize cur + total l.
Proof.
  revert cur acc. induction l as [|[[i2 j2] k2] l IH]; intros cur acc.
  - simpl. lia.
  - cbn [fold_left]. destruct cur as [[i1 j1] k1]. unfold collapse_step at 2 4.
    destruct ((i1 + k1 =? i2) && (j1 + k1 =? j2)).
    + rewrite IH. unfold msize. simpl. lia.
    + rewrite IH. unfold msize. simpl.
      destruct (Nat.eqb_spec k1 0) as [->|N]; [lia|].
      rewrite total_app. unfold msize. simpl. lia.
Qed.

Lemma matches_total (a b : list ascii) :
  matches a b = total (matching_blocks a b).
Proof.
  unfold matches, get_matching_blocks.
  set (r := fold_left collapse_step (sort_matches (matching_blocks a b))
              (0, 0, 0, [])).
  assert (H : total (snd r) + msize (fst r) = total (matching_blocks a b)).
  { subst r. rewrite total_collapse, total_sort_matches. reflexivity. }
  clearbody r. destruct r as [[[i1 j1] k1] na].
  unfold msize in H. cbn [fst snd] in H.
  fold (total ((if k1 =? 0 then na else na ++ [(i1, j1, k1)])
               ++ [(List.length a, List.length b, 0)])).
  rewrite total_app. unfold msize at 1. cbn [snd].
  destruct (Nat.eqb_spec k1 0) as [->|N]; [lia|].
  rewrite total_app. unfold msize. cbn [snd]. lia.
Qed.

Section Blocks.

Variables a b : list ascii.

(** What one iteration does to the queue and the blocks. *)
Lemma gmb_step_inv (r : range) (q : list range) (bl : list Match) :
  range_ok r -> Forall range_ok q ->
  exists q' bl',
    gmb_step a b (r :: q) bl = Some (q', bl') /\
    Forall range_ok q' /\
    qsteps q' < qsteps (r :: q) /\
    2 * total bl' + qsize q' <= 2 * total bl + qsize (r :: q) /\
    (2 * total bl' + qsize q' = 2 * total bl + qsize (r :: q) ->
     (forall r', In r' q' -> range_eq a b r') -> range_eq a b r) /\
    (forall r', In r' q -> In r' q').
Proof.
  destruct r as [[[alo ahi] blo] bhi]. intros [Ha Hb] Hq.
  unfold gmb_step.
  pose proof (find_longest_match_ok a b alo ahi blo bhi Ha Hb) as Hm.
  destruct (find_longest_match a b alo ahi blo bhi) as [[i j] k].
  unfold match_ok in Hm. destruct Hm as (H1 & H2 & H3 & H4 & H5).
  destruct (Nat.eqb_spec k 0) as [->|Hk].
  - exists q, bl. split; [reflexivity|]. split; [exact Hq|].
    split; [simpl; lia|]. split; [simpl; lia|]. split; [|auto].
    intros Heq _. simpl in Heq. simpl. split; [lia | intros t Ht; lia].
  - assert (Hglue :
      range_eq a b (alo, i, blo, j) ->
      range_eq a b (i + k, ahi, j + k, bhi) ->
      range_eq a b (alo, ahi, blo, bhi)).
    { intros [HL1 HL2] [HR1 HR2]. split; [lia|].
      intros t Ht.
      destruct (Nat.ltb_spec t (i - alo)) as [C1|C1]; [apply HL2; exact C1|].
      destruct (Nat.ltb_spec t (i - alo + k)) as [C2|C2].
      - replace (alo + t) with (i + (t - (i - alo))) by lia.
        replace (blo + t) with (j + (t - (i - alo))) by lia.
        apply H5. lia.
      - replace (alo + t) with (i + k + (t - (i - alo + k))) by lia.
        replace (blo + t) with (j + k + (t - (i - alo + k))) by lia.
        apply HR2. lia. }
    destruct (Nat.ltb_spec alo i) as [Li|Li];
      destruct (Nat.ltb_spec blo j) as [Lj|Lj];
      destruct (Nat.ltb_spec (i + k) ahi) as [Ri|Ri];
      destruct (Nat.ltb_spec (j + k) bhi) as [Rj|Rj];
      cbn [andb];
      eexists; eexists; (split; [reflexivity|]);
      rewrite total_app; unfold msize; cbn [snd];
      (split; [repeat constructor; auto; simpl; lia|]);
      (split; [simpl; lia|]);
      (split; [simpl; lia|]);
      (split; [|intros r' Hr'; simpl; tauto]);
      intros Heq Hall; simpl in Heq;
      (apply Hglue;
       first [ apply Hall; simpl; tauto
             | simpl; split; [lia | intros t Ht; lia] ]).
Qed.

Lemma gmb_loop_bound (fuel : nat) (q : list range) (bl : list Match) :
  Forall range_ok q ->
  2 * total (gmb_loop a b fuel q bl) <= 2 * total bl + qsize q.
Proof.
  revert q bl. induction fuel as [|fuel IH]; intros q bl Hq; [simpl; lia|].
  destruct q as [|r q]; [simpl; lia|].
  inversion Hq as [|? ? Hr Hq']; subst.
  destruct (gmb_step_inv r q bl Hr Hq') as (q1 & bl1 & E & Hq1 & _ & Hle & _).
  cbn [gmb_loop]. rewrite E. specialize (IH q1 bl1 Hq1). lia.
Qed.

(** With the budget exhausted exactly, every queued window is matched
    entirely. *)
Lemma gmb_loop_tight (fuel : nat) (q : list range) (bl : list Match) :
  Forall range_ok q -> qsteps q <= fuel ->
  2 * total (gmb_loop a b fuel q bl) = 2 * total bl + qsize q ->
  forall r, In r q -> range_eq a b r.
Proof.
  revert q bl. induction fuel as [|fuel IH]; intros q bl Hq Hf Heq r Hr.
  - destruct q as [|[[[alo ahi] blo] bhi] q]; [destruct Hr|]. simpl in Hf. lia.
  - destruct q as [|r0 q]; [destruct Hr|].
    inversion Hq as [|? ? Hr0 Hq']; subst.
    destruct (gmb_step_inv r0 q bl Hr0 Hq')
      as (q1 & bl1 & E & Hq1 & Hst & Hle & Htight & Hsub).
    cbn [gmb_loop] in Heq. rewrite E in Heq.
    pose proof (gmb_loop_bound fuel q1 bl1 Hq1) as Hb1.
    assert (Heq1 : 2 * total (gmb_loop a b fuel q1 bl1)
                   = 2 * total bl1 + qsize q1) by lia.
    assert (Hall : forall r', In r' q1 -> range_eq a b r').
    { apply (IH q1 bl1); auto. lia. }
    destruct Hr as [<-|Hr].
    + apply Htight; [lia | exact Hall].
    + apply Hall. apply Hsub. exact Hr.
Qed.

(** More fuel than [qsteps] changes nothing: the loop has ended with an
    empty queue. *)
Lemma gmb_loop_fuel (fuel extra : nat) (q : list range) (bl : list Match) :
  Forall range_ok q -> qsteps q <= fuel ->
  gmb_loop a b (fuel + extra) q bl = gmb_loop a b fuel q bl.
Proof.
  revert q bl. induction fuel as [|fuel IH]; intros q bl Hq Hf.
  - destruct q as [|[[[alo ahi] blo] bhi] q]; [|simpl in Hf; lia].
    destruct extra; reflexivity.
  - destruct q as [|r0 q]; [reflexivity|].
    inversion Hq as [|? ? Hr0 Hq']; subst.
    destruct (gmb_step_inv r0 q bl Hr0 Hq')
      as (q1 & bl1 & E & Hq1 & Hst & _).
    cbn [Nat.add gmb_loop]. rewrite E. apply IH; auto. lia.
Qed.

Lemma init_range_ok :
  Forall range_ok [(0, List.length a, 0, List.length b)].
Proof. repeat constructor; lia. Qed.

Lemma matches_bound : 2 * matches a b <= List.length a + List.length b.
Proof.
  pose proof (gmb_loop_bound (2 * List.length a + 1) _ [] init_range_ok) as H.
  rewrite matches_total. unfold matching_blocks.
  unfold qsize, rsize in H. cbn [fold_right total] in H. lia.
Qed.

Lemma matches_tight :
  2 * matches a b = List.length a + List.length b -> a = b.
Proof.
  intros H.
  assert (R : range_eq a b (0, List.length a, 0, List.length b)).
  { apply (gmb_loop_tight (2 * List.length a + 1)
             [(0, List.length a, 0, List.length b)] [] init_range_ok).
    - unfold qsteps, rsteps. cbn [fold_right]. lia.
    - rewrite matches_total in H. unfold matching_blocks in H.
      unfold qsize, rsize. cbn [fold_right total]. lia.
    - now left. }
  destruct R as [R1 R2]. rewrite !Nat.sub_0_r in *.
  apply (nth_ext a b Ascii.zero Ascii.zero R1).
  intros n Hn. apply (R2 n Hn).
Qed.

(** The fuel of [matching_blocks] is enough. *)
Lemma matching_blocks_fuel (extra : nat) :
  gmb_loop a b (2 * List.length a + 1 + extra)
    [(0, List.length a, 0, List.length b)] [] = matching_blocks a b.
Proof.
  apply gmb_loop_fuel; [exact init_range_ok|].
  unfold qsteps, rsteps. cbn [fold_right]. lia.
Qed.

End Blocks.

(** *** A sequence against itself *)

(** Length of the run of unpopular elements of [a] that ends just before
    position [m]. *)
Fixpoint unpopular_run (a : list ascii) (m : nat) : nat :=
  match m with
  | 0 => 0
  | S m' => if popular a (geta a m') then 0 else S (unpopular_run a m')
  end.

Section SelfMatch.

Variable a : list ascii.

Let n : nat := List.length a.
Let R : nat -> nat := unpopular_run a.

(** Seen from row [i]: the best block is on the diagonal, a recorded run
    is no longer than the diagonal run at the smaller of its two ends, the
    diagonal entry is exact, and the best size dominates the diagonal runs
    of the rows above. *)
Definition self_inv (i : nat) (st : fstate) : Prop :=
  besti st = bestj st /\
  (forall j, dget (newj2len st) j <= R (Nat.min i (j + 1))) /\
  dget_prev (newj2len st) i = R i /\
  (forall d, d < i -> R (S d) <= bestsize st).

Lemma R_unpopular (j : nat) :
  popular a (geta a j) = false -> R (S j) = S (R j).
Proof. intros H. unfold R. simpl. rewrite H. reflexivity. Qed.

Lemma self_inner (i : nat) (D : dict) (js : list nat) (st : fstate) :
  i < n ->
  (forall j, dget D j <= R (Nat.min i (j + 1))) ->
  dget_prev D i = R i ->
  StronglySorted lt js ->
  (forall j, In j js ->
             j < n /\ geta a j = geta a i /\ popular a (geta a i) = false) ->
  besti st = bestj st ->
  (forall j, dget (newj2len st) j <= R (Nat.min (S i) (j + 1))) ->
  (forall d, d < i -> R (S d) <= bestsize st) ->
  In i js \/ (R (S i) <= bestsize st /\ dget (newj2len st) i = R (S i)) ->
  self_inv (S i) (flm_inner 0 n i D js st).
Proof.
  intros Hi HD1 HD3. revert st.
  induction js as [|j js IH]; intros st Hs Hjs Hdiag Hnew Hrows Hin.
  - simpl. destruct Hin as [[]|[Hin1 Hin2]].
    unfold self_inv. cbn [dget_prev]. repeat split; auto.
    intros d0 Hd. destruct (Nat.eq_dec d0 i) as [->|N]; [exact Hin1|].
    apply Hrows. lia.
  - destruct (Hjs j (or_introl eq_refl)) as (Hjn & Hji & Hpop).
    assert (Hpj : popular a (geta a j) = false) by (rewrite Hji; exact Hpop).
    inversion Hs as [|? ? Hs' Hlt]; subst.
    cbn [flm_inner]. change (j <? 0) with false. cbv iota.
    destruct (Nat.leb_spec n j) as [C|_]; [lia|].
    assert (Hk : dget_prev D j <= R (Nat.min i j)).
    { destruct j as [|j']; cbn [dget_prev]; [lia|].
      specialize (HD1 j'). replace (j' + 1) with (S j') in HD1 by lia.
      exact HD1. }
    assert (Hmin : R (S (Nat.min i j)) = S (R (Nat.min i j))).
    { apply R_unpopular. destruct (Nat.min_spec i j) as [[_ ->]|[_ ->]];
        assumption. }
    assert (Hnew' : forall j0,
               dget ((j, dget_prev D j + 1) :: newj2len st) j0
               <= R (Nat.min (S i) (j0 + 1))).
    { intros j0. cbn [dget]. destruct (Nat.eqb_spec j j0) as [<-|Hne].
      - replace (Nat.min (S i) (j + 1)) with (S (Nat.min i j)) by lia.
        lia.
      - apply Hnew. }
    assert (Hsmall : j <> i -> dget_prev D j + 1 <= bestsize st).
    { intros Hne. destruct (Nat.lt_ge_cases j i) as [Hlt'|Hge].
      - specialize (Hrows j Hlt').
        replace (Nat.min i j) with j in * by lia. lia.
      - assert (Hgt : i < j) by lia.
        destruct Hin as [[E|Hin]|[Hin _]].
        + lia.
        + rewrite Forall_forall in Hlt. specialize (Hlt i Hin). lia.
        + replace (Nat.min i j) with i in * by lia.
          rewrite (R_unpopular i Hpop) in Hin. lia. }
    assert (Hin' : forall bs' D',
               bestsize st <= bs' -> dget_prev D j + 1 <= bs' ->
               D' = (j, dget_prev D j + 1) :: newj2len st ->
               In i js \/ (R (S i) <= bs' /\ dget D' i = R (S i))).
    { intros bs' D' Hbs Hkbs ->. cbn [dget].
      destruct (Nat.eqb_spec j i) as [->|Hne].
      - right. rewrite (R_unpopular i Hpop). rewrite HD3. lia.
      - destruct Hin as [[E|Hin]|[Hin1 Hin2]].
        + contradiction.
        + now left.
        + right. split; [lia | exact Hin2]. }
    destruct (Nat.ltb_spec (bestsize st) (dget_prev D j + 1)) as [Hgt|Hle].
    + apply IH; cbn [newj2len besti bestj bestsize].
      * exact Hs'.
      * intros j' Hj'. apply Hjs. now right.
      * destruct (Nat.eq_dec j i) as [->|Hne]; [reflexivity|].
        specialize (Hsmall Hne). lia.
      * exact Hnew'.
      * intros d0 Hd. specialize (Hrows d0 Hd). lia.
      * apply Hin'; auto; lia.
    + apply IH; cbn [newj2len besti bestj bestsize].
      * exact Hs'.
      * intros j' Hj'. apply Hjs. now right.
      * exact Hdiag.
      * exact Hnew'.
      * exact Hrows.
      * apply Hin'; auto.
Qed.

Lemma self_row (i : nat) (st : fstate) :
  i < n -> self_inv i st -> self_inv (S i) (flm_row a a 0 n st i).
Proof.
  intros Hi (H1 & H2 & H3 & H4). unfold flm_row.
  apply self_inner; cbn [newj2len besti bestj bestsize].
  - exact Hi.
  - exact H2.
  - exact H3.
  - apply b2j_sorted.
  - intros j Hj. pose proof (b2j_In _ _ _ Hj) as [Hl Hc].
    split; [exact Hl|]. split; [exact Hc|].
    unfold b2j in Hj. destruct (popular a (geta a i)); [destruct Hj|].
    reflexivity.
  - exact H1.
  - intros j. cbn [dget]. lia.
  - exact H4.
  - destruct (popular a (geta a i)) eqn:Hp.
    + right. unfold R. cbn [unpopular_run dget]. rewrite Hp.
      split; [lia | reflexivity].
    + left. apply b2j_unpopular; auto.
Qed.

Lemma self_fold (m i : nat) (st : fstate) :
  i + m <= n -> self_inv i st ->
  besti (fold_left (flm_row a a 0 n) (seq i m) st)
  = bestj (fold_left (flm_row a a 0 n) (seq i m) st).
Proof.
  revert i st. induction m as [|m IH]; intros i st Hm Hinv; simpl.
  - apply Hinv.
  - apply IH; [lia|]. apply self_row; [lia | exact Hinv].
Qed.

Lemma self_rows_diagonal :
  besti (flm_rows a a 0 n 0 n) = bestj (flm_rows a a 0 n 0 n).
Proof.
  unfold flm_rows. apply self_fold; [lia|].
  unfold self_inv. simpl. repeat split; auto; lia.
Qed.

Lemma extend_back_diagonal (bi bs : nat) :
  extend_back a a 0 0 (fun c => negb (isbjunk c)) bi bi bs = (0, 0, bs + bi).
Proof.
  revert bs. induction bi as [|i IH]; intros bs; simpl.
  - f_equal. lia.
  - unfold geta, getb. rewrite Ascii.eqb_refl. simpl.
    rewrite IH. f_equal. lia.
Qed.

Lemma extend_fwd_diagonal (fuel bs : nat) :
  bs + fuel <= n ->
  extend_fwd a a n n (fun c => negb (isbjunk c)) fuel 0 0 bs
  = (0, 0, bs + fuel).
Proof.
  revert bs. induction fuel as [|fuel IH]; intros bs H; simpl.
  - f_equal. lia.
  - destruct (Nat.ltb_spec bs n) as [_|C]; [|lia].
    unfold geta, getb. rewrite Ascii.eqb_refl. simpl.
    rewrite IH by lia. f_equal. lia.
Qed.

Lemma find_longest_match_self :
  find_longest_match a a 0 n 0 n = (0, 0, n).
Proof.
  unfold find_longest_match.
  pose proof (flm_rows_ok a a 0 n 0 n (Nat.le_0_l n) (Nat.le_0_l n)) as Hok.
  pose proof self_rows_diagonal as Hd.
  unfold best_ok, match_ok in Hok.
  destruct (flm_rows a a 0 n 0 n) as [D bi bj bs].
  cbn [besti bestj bestsize] in *. subst bj.
  destruct Hok as (_ & Hle & _).
  unfold extend at 2. rewrite extend_back_diagonal.
  rewrite extend_fwd_diagonal by lia.
  replace (bs + bi + (n - (0 + (bs + bi)))) with n by lia.
  unfold extend. cbn [extend_back].
  replace (n - (0 + n)) with 0 by lia. reflexivity.
Qed.

Lemma matching_blocks_self :
  a <> [] -> matching_blocks a a = [(0, 0, n)].
Proof.
  intros Hne. unfold matching_blocks. fold n.
  replace (2 * n + 1) with (S (2 * n)) by lia.
  cbn [gmb_loop gmb_step]. rewrite find_longest_match_self.
  assert (Hn : n <> 0).
  { unfold n. destruct a; [contradiction | simpl; lia]. }
  destruct (Nat.eqb_spec n 0) as [C|_]; [contradiction|].
  rewrite Nat.ltb_irrefl. cbn [andb].
  replace (0 + n <? n) with false by (symmetry; apply Nat.ltb_ge; lia).
  cbn [andb app]. destruct (2 * n); reflexivity.
Qed.

Lemma matches_self : matches a a = n.
Proof.
  destruct (list_eq_dec Ascii.ascii_dec a []) as [E|E].
  - unfold n. rewrite E. reflexivity.
  - rewrite matches_total, (matching_blocks_self E).
    unfold msize. simpl. lia.
Qed.

End SelfMatch.

Lemma ratio_self (a : list ascii) : (ratio a a == 1)%Q.
Proof.
  unfold ratio. rewrite matches_self.
  destruct (Nat.eqb_spec (List.length a + List.length a) 0) as [E|E].
  - reflexivity.
  - replace (List.length a + List.length a) with (2 * List.length a) by lia.
    rewrite Nat2Z.inj_mul, inject_Z_mult. simpl (Z.of_nat 2).
    change (inject_Z 2) with 2%Q.
    assert (Hx : ~ (inject_Z (Z.of_nat (List.length a)) == 0)%Q).
    { intros H. change 0%Q with (inject_Z 0) in H.
      rewrite inject_Z_injective in H. lia. }
    field. exact Hx.
Qed.

Lemma ratio_one_eq (a b : list ascii) : (1 <= ratio a b)%Q -> a = b.
Proof.
  unfold ratio.
  destruct (Nat.eqb_spec (List.length a + List.length b) 0) as [E|E].
  - intros _. destruct a, b; simpl in E; try lia. reflexivity.
  - intros H. apply matches_tight.
    pose proof (matches_bound a b) as Hb.
    set (T := List.length a + List.length b) in *.
    assert (HT : (0 < inject_Z (Z.of_nat T))%Q).
    { change 0%Q with (inject_Z 0). rewrite <- Zlt_Qlt. lia. }
    assert (H2 : (1 * inject_Z (Z.of_nat T)
                  <= 2 * inject_Z (Z.of_nat (matches a b))
                     / inject_Z (Z.of_nat T) * inject_Z (Z.of_nat T))%Q).
    { apply Qmult_le_compat_r; [exact H | apply Qlt_le_weak; exact HT]. }
    rewrite Qmult_1_l in H2.
    rewrite Qmult_comm, Qmult_div_r in H2
      by (intros C; rewrite C in HT; apply (Qlt_irrefl _ HT)).
    change 2%Q with (inject_Z 2) in H2.
    rewrite <- inject_Z_mult in H2. rewrite <- Zle_Qle in H2. lia.
Qed.

End DifflibFacts.

(** ** Facts about [calculate_similarity] *)

Lemma list_ascii_of_string_inj (s t : string) :
  list_ascii_of_string s = list_ascii_of_string t -> s = t.
Proof.
  intros H. rewrite <- (string_of_list_ascii_of_string s).
  rewrite <- (string_of_list_ascii_of_string t). now rewrite H.
Qed.

Lemma similarity_self (p : string) : (calculate_similarity p p == 100)%Q.
Proof.
  unfold calculate_similarity. rewrite DifflibFacts.ratio_self. reflexivity.
Qed.

Lemma similarity_100_eq (p q : string) :
  (100 <= calculate_similarity p q)%Q -> p = q.
Proof.
  unfold calculate_similarity. intros H.
  apply list_ascii_of_string_inj. apply DifflibFacts.ratio_one_eq.
  apply (Qmult_le_r _ _ 100); [reflexivity|]. exact H.
Qed.

Lemma threshold_100_iff (p q : string) :
  Qle_bool 100 (calculate_similarity p q) = true <-> p = q.
Proof.
  rewrite Qle_bool_iff. split.
  - apply similarity_100_eq.
  - intros ->. rewrite similarity_self. apply Qle_refl.
Qed.

(** C3, as amended: for every string [a], [calculate_similarity(a, a)] is
    exactly 100.  (Symmetry is not part of it: see
    [similarity_is_not_symmetric].) *)
Theorem similarity_with_itself_is_100 (a : string) :
  (calculate_similarity a a == 100)%Q.
Proof.
  unfold calculate_similarity.
  rewrite (DifflibFacts.ratio_self (list_ascii_of_string a)).
  reflexivity.
Qed.

(** C3 as stated fails: the metric is not symmetric.  The blocks are found
    from the left sequence's point of view, so [TIDE] against [DIET]
    matches only [T] (25), while [DIET] against [TIDE] matches [D] and then
    [E] (50). *)
Lemma similarity_is_not_symmetric :
  (calculate_similarity "TIDE" "DIET" == 25)%Q /\
  (calculate_similarity "DIET" "TIDE" == 50)%Q /\
  ~ ((forall a, (calculate_similarity a a == 100)%Q) /\
     (forall a b, (calculate_similarity a b == calculate_similarity b a)%Q)).
Proof.
  split; [reflexivity|]. split; [reflexivity|].
  intros [_ H]. specialize (H "TIDE" "DIET"). vm_compute in H. discriminate.
Qed.

(** ** The parser and the aggregator *)

Fixpoint all_chars (P : ascii -> bool) (s : string) : bool :=
  match s with
  | EmptyString => true
  | String c s' => P c && all_chars P s'
  end.

Lemma span_all (P : ascii -> bool) (s : string) :
  all_chars P (fst (span P s)) = true.
Proof.
  induction s as [|c s IH]; simpl; [reflexivity|].
  destruct (P c) eqn:E; [|reflexivity].
  destruct (span P s) as [x r]. simpl in *. now rewrite E, IH.
Qed.

Lemma all_chars_app (P : ascii -> bool) (s t : string) :
  all_chars P s = true -> all_chars P t = true ->
  all_chars P (s ++ t) = true.
Proof.
  induction s as [|c s IH]; simpl; intros Hs Ht; [exact Ht|].
  apply andb_prop in Hs. destruct Hs as [Hc Hs]. now rewrite Hc, IH.
Qed.

Lemma digit_value_nonneg (c : ascii) :
  isdigit c = true -> (0 <= digit_value c <= 9)%Z.
Proof.
  unfold isdigit, digit_value. intros H.
  apply andb_prop in H. destruct H as [H1 H2].
  apply Nat.leb_le in H1, H2. lia.
Qed.

Lemma int_acc_nonneg (ds : string) (acc : Z) :
  all_chars isdigit ds = true -> (0 <= acc)%Z -> (0 <= int_acc acc ds)%Z.
Proof.
  revert acc. induction ds as [|c ds IH]; cbn [int_acc all_chars];
    intros acc H Hacc; [lia|].
  apply andb_prop in H. destruct H as [Hc Hds].
  apply IH; [exact Hds|]. pose proof (digit_value_nonneg c Hc). lia.
Qed.

Lemma int_of_digits_nonneg (ds : string) :
  all_chars isdigit ds = true -> (0 <= int_of_digits ds)%Z.
Proof. intros H. apply int_acc_nonneg; [exact H | lia]. Qed.

Lemma frame_match_digits (line ds : string) :
  frame_match line = Some ds -> all_chars isdigit ds = true.
Proof.
  unfold frame_match. destruct (literal "Frame:" line) as [r|]; [|discriminate].
  destruct (span isspace r) as [w r1].
  pose proof (span_all isdigit r1) as H.
  destruct (span isdigit r1) as [x r2]. simpl in H.
  destruct x; [discriminate|]. intros E. inversion E; subst. exact H.
Qed.

Lemma plate_match_digits (line plate ip fp : string) (dot : bool) :
  plate_match line = Some (plate, (ip, dot, fp)) ->
  all_chars isdigit ip = true /\ all_chars isdigit fp = true.
Proof.
  unfold plate_match. destruct (span isspace line) as [w0 r0].
  destruct (literal "-" r0) as [r1|]; [|discriminate].
  destruct (span isspace r1) as [w1 r2].
  destruct (span isplatechar r2) as [pl r3].
  destruct pl; [discriminate|].
  destruct (span isspace r3) as [ws r4].
  destruct ws; [discriminate|].
  destruct (literal "confidence:" r4) as [r5|]; [|discriminate].
  destruct (span isspace r5) as [w5 r6].
  pose proof (span_all isdigit r6) as Hip.
  destruct (span isdigit r6) as [ip0 r7]. simpl in Hip.
  destruct ip0; [discriminate|].
  destruct (literal "." r7) as [r8|].
  - pose proof (span_all isdigit r8) as Hfp.
    destruct (span isdigit r8) as [fp0 r9]. simpl in Hfp.
    intros E. inversion E; subst. split; assumption.
  - intros E. inversion E; subst. split; [assumption | reflexivity].
Qed.

Lemma float_of_decimal_nonneg (ip fp : string) (dot : bool) :
  all_chars isdigit ip = true -> all_chars isdigit fp = true ->
  (0 <= float_of_decimal (ip, dot, fp))%Q.
Proof.
  intros Hi Hf. unfold float_of_decimal, Qle. simpl.
  pose proof (int_of_digits_nonneg (ip ++ fp) (all_chars_app _ _ _ Hi Hf)).
  lia.
Qed.

(** A frame marker is not a plate reading. *)
Lemma plate_line_not_frame (line : string) :
  plate_match line <> None -> frame_match line = None.
Proof.
  intros H. destruct (frame_match line) eqn:E; [|reflexivity].
  exfalso. apply H. unfold frame_match in E.
  destruct line as [|c line]; [discriminate|].
  change (literal "Frame:" (String c line))
    with (if Ascii.eqb "F" c then literal "rame:" line else None) in E.
  destruct (Ascii.eqb_spec "F"%char c) as [<-|N]; [|discriminate].
  reflexivity.
Qed.

(** The two appends of one event, as one update of the association. *)
Fixpoint append_event (pd : plate_data) (k : string) (c : Q) (f : Z)
  : plate_data :=
  match pd with
  | [] => [(k, mkRecord [c] [f])]
  | (k', r) :: pd' =>
      if String.eqb k' k
      then (k', mkRecord (confidences r ++ [c]) (frames r ++ [f])) :: pd'
      else (k', r) :: append_event pd' k c f
  end.

Lemma touch_update_cons (k' k : string) (r : record) (pd : plate_data)
    (g : record -> record) :
  String.eqb k' k = false ->
  update (touch ((k', r) :: pd) k) k g = (k', r) :: update (touch pd k) k g.
Proof.
  intros E. unfold touch. simpl. rewrite E. simpl.
  destruct (mem k (keys pd)); simpl; rewrite E; reflexivity.
Qed.

Lemma append_frame_confidence (pd : plate_data) (k : string) (c : Q) (f : Z) :
  append_frame (append_confidence pd k c) k f = append_event pd k c f.
Proof.
  unfold append_frame, append_confidence.
  induction pd as [|[k' r] pd IH].
  - unfold touch. simpl. rewrite String.eqb_refl. simpl.
    rewrite String.eqb_refl. simpl. rewrite String.eqb_refl. reflexivity.
  - simpl. destruct (String.eqb k' k) eqn:E.
    + unfold touch. simpl. rewrite E. simpl. rewrite E. simpl.
      rewrite E. simpl. rewrite E. reflexivity.
    + rewrite (touch_update_cons _ _ _ _ _ E).
      rewrite (touch_update_cons _ _ _ _ _ E). now rewrite IH.
Qed.

Lemma mem_In (x : string) (l : list string) : mem x l = true <-> In x l.
Proof.
  induction l as [|y l IH]; simpl.
  - split; [discriminate | tauto].
  - rewrite orb_true_iff, IH, String.eqb_eq. tauto.
Qed.

Lemma mem_false (x : string) (l : list string) :
  mem x l = false <-> ~ In x l.
Proof.
  rewrite <- mem_In. destruct (mem x l); split; congruence.
Qed.

Lemma append_event_keys (pd : plate_data) (k : string) (c : Q) (f : Z) :
  keys (append_event pd k c f)
  = if mem k (keys pd) then keys pd else (keys pd ++ [k])%list.
Proof.
  induction pd as [|[k' r] pd IH]; simpl; [reflexivity|].
  destruct (String.eqb k' k) eqn:E; simpl; [reflexivity|].
  rewrite IH. destruct (mem k (keys pd)); reflexivity.
Qed.

Lemma append_event_NoDup (pd : plate_data) (k : string) (c : Q) (f : Z) :
  NoDup (keys pd) -> NoDup (keys (append_event pd k c f)).
Proof.
  intros H. rewrite append_event_keys.
  destruct (mem k (keys pd)) eqn:E; [exact H|].
  apply mem_false in E.
  apply NoDup_rev in H. rewrite <- (rev_involutive (keys pd ++ [k])).
  apply NoDup_rev. rewrite rev_app_distr. simpl. constructor; [|exact H].
  rewrite <- in_rev. exact E.
Qed.

Lemma append_event_Forall (P : record -> Prop) (pd : plate_data)
    (k : string) (c : Q) (f : Z) :
  P (mkRecord [c] [f]) ->
  (forall r, P r -> P (mkRecord (confidences r ++ [c]) (frames r ++ [f]))) ->
  Forall (fun kr => P (snd kr)) pd ->
  Forall (fun kr => P (snd kr)) (append_event pd k c f).
Proof.
  intros H1 H2 H. induction H as [|[k' r] pd Hr Hpd IH]; simpl.
  - repeat constructor. exact H1.
  - destruct (String.eqb k' k); constructor; auto.
    simpl. apply H2. exact Hr.
Qed.

(** What every record of a parsed log satisfies. *)
Definition record_ok (r : record) : Prop :=
  List.length (confidences r) = List.length (frames r) /\
  (1 <= List.length (frames r))%nat /\
  Forall (fun c => 0 <= c)%Q (confidences r) /\
  Forall (fun f => 0 <= f)%Z (frames r).

Definition state_ok (st : parse_state) : Prop :=
  (forall f, fst st = Some f -> (0 <= f)%Z) /\
  NoDup (keys (snd st)) /\
  Forall (fun kr => record_ok (snd kr)) (snd st).

Lemma parse_line_ok (st : parse_state) (raw : string) :
  state_ok st -> state_ok (parse_line st raw).
Proof.
  destruct st as [cf pd]. intros (Hf & Hnd & Hrec). unfold parse_line.
  destruct (frame_match (strip raw)) as [ds|] eqn:Efm.
  - repeat split; simpl; auto. intros f E. inversion E; subst.
    apply int_of_digits_nonneg. apply (frame_match_digits _ _ Efm).
  - destruct (plate_match (strip raw)) as [[plate [[ip dot] fp]]|] eqn:Epm;
      [|repeat split; auto].
    destruct cf as [frame|]; [|repeat split; auto].
    rewrite append_frame_confidence.
    destruct (plate_match_digits _ _ _ _ _ Epm) as [Hip Hfp].
    pose proof (float_of_decimal_nonneg ip fp dot Hip Hfp) as Hc.
    pose proof (Hf frame eq_refl) as Hfr.
    repeat split; simpl; auto.
    + apply append_event_NoDup. exact Hnd.
    + apply append_event_Forall; auto.
      * unfold record_ok. simpl. repeat split; auto.
      * intros r (R1 & R2 & R3 & R4). unfold record_ok. simpl.
        rewrite !length_app. simpl. repeat split; try lia.
        -- apply Forall_app. split; auto.
        -- apply Forall_app. split; auto.
Qed.

Lemma parse_fold_ok (lines : list string) (st : parse_state) :
  state_ok st -> state_ok (fold_left parse_line lines st).
Proof.
  revert st. induction lines as [|l lines IH]; intros st H; simpl; auto.
  apply IH. apply parse_line_ok. exact H.
Qed.

Lemma parse_lines_ok (lines : list string) : state_ok (parse_lines lines).
Proof.
  apply parse_fold_ok. repeat split; simpl; try constructor.
  intros f E. discriminate.
Qed.

Lemma events_of_In (pd : plate_data) (f : Z) (p : string) (c : Q) :
  In (f, p, c) (events_of pd) ->
  exists r, In (p, r) pd /\ In c (confidences r) /\ In f (frames r).
Proof.
  unfold events_of. rewrite in_flat_map. intros [[p' r] [Hin H]].
  apply in_map_iff in H. destruct H as [[c' f'] [E Hcf]].
  inversion E; subst. exists r. split; [exact Hin|]. split.
  - apply (in_combine_l _ _ _ _ Hcf).
  - apply (in_combine_r _ _ _ _ Hcf).
Qed.

Lemma parsed_record_ok (lines : list string) (p : string) (r : record) :
  In (p, r) (snd (parse_lines lines)) -> record_ok r.
Proof.
  intros H. destruct (parse_lines_ok lines) as (_ & _ & Hall).
  rewrite Forall_forall in Hall. apply (Hall (p, r) H).
Qed.

(** The tabulator of the example lines. *)
Definition tab : string := String (ascii_of_nat 9) "".

(** The six-line example log. *)
Definition example_log : list string :=
  ["Frame: 1";
   "  - AI3NRU" ++ tab ++ " confidence: 82.6628";
   "Frame: 2";
   "  - AI3NRU" ++ tab ++ " confidence: 79.0";
   "Frame: 5";
   "  - AI3NR0" ++ tab ++ " confidence: 88.0"].

(** C6: after aggregation of any log, every record of [plate_data] has as
    many confidences as frames, and at least one: no record with zero
    events exists after a line has been processed. *)
Theorem aggregated_records_nonempty (lines : list string) (p : string)
    (r : record) (H : In (p, r) (snd (parse_lines lines))) :
  List.length (confidences r) = List.length (frames r) /\
  (List.length (frames r) >= 1)%nat.
Proof.
  destruct (parsed_record_ok lines p r H) as (H1 & H2 & _). split; auto.
Qed.

Lemma aggregated_records_nonempty_witness :
  List.length (confidences (mkRecord [82.6628; 79.0]%Q [1; 2]%Z))
  = List.length (frames (mkRecord [82.6628; 79.0]%Q [1; 2]%Z)) /\
  (List.length (frames (mkRecord [82.6628; 79.0]%Q [1; 2]%Z)) >= 1)%nat.
Proof.
  apply (aggregated_records_nonempty example_log "AI3NRU").
  vm_compute. left. reflexivity.
Defined.

(** C9, as amended: every event the parser produces has a confidence that
    is a non-negative number and a frame number that is a non-negative
    integer.  (No upper bound on the confidence: see
    [confidence_above_100_accepted].) *)
Theorem parsed_events_nonnegative (lines : list string) (f : Z) (p : string)
    (c : Q) (H : In (f, p, c) (events_of (snd (parse_lines lines)))) :
  (0 <= c)%Q /\ (0 <= f)%Z.
Proof.
  apply events_of_In in H. destruct H as (r & Hr & Hc & Hf).
  destruct (parsed_record_ok lines p r Hr) as (_ & _ & H3 & H4).
  rewrite Forall_forall in H3, H4. split; auto.
Qed.

Lemma parsed_events_nonnegative_witness :
  (0 <= 82.6628)%Q /\ (0 <= 1)%Z.
Proof.
  apply (parsed_events_nonnegative example_log 1%Z "AI3NRU" 82.6628%Q).
  vm_compute. left. reflexivity.
Defined.

(** C9 as stated fails: the pattern accepts any digits, and nothing
    checks the value against 100. *)
Lemma confidence_above_100_accepted :
  events_of (snd (parse_lines
                    ["Frame: 1"; "  - AI3NRU" ++ tab ++ " confidence: 250"]))
  = [(1%Z, "AI3NRU", 250%Q)] /\
  ~ (forall lines f p c,
        In (f, p, c) (events_of (snd (parse_lines lines))) ->
        ((0 <= c)%Q /\ (c <= 100)%Q) /\ (0 <= f)%Z).
Proof.
  split; [reflexivity|]. intros H.
  destruct (H ["Frame: 1"; "  - AI3NRU" ++ tab ++ " confidence: 250"]
              1%Z "AI3NRU" 250%Q) as [[_ C] _].
  - left. reflexivity.
  - vm_compute in C. apply C. reflexivity.
Qed.

(** ** The greedy grouping pass *)

Section Scan.

Variable pd : plate_data.
Variable thr : Q.
Variable seed : string.

(** The candidates of [rest] that join the seed's cluster when the texts
    of [used] are consumed. *)
Definition joiners (used rest : list string) : list string :=
  filter (fun c => negb (mem c used)
                   && Qle_bool thr (calculate_similarity seed c)) rest.

Lemma joiners_cons_used (c : string) (used rest : list string) :
  ~ In c rest -> joiners (c :: used) rest = joiners used rest.
Proof.
  intros H. unfold joiners. apply filter_ext_in. intros x Hx. simpl.
  destruct (String.eqb_spec c x) as [->|N]; [contradiction|]. reflexivity.
Qed.

Lemma scan_fold (rest : list string) (st : scan) :
  NoDup rest ->
  let st' := fold_left (scan_step pd thr seed) rest st in
  similar_group st'
  = (similar_group st ++ joiners (used_plates st) rest)%list /\
  confidences (similar_data st')
  = (confidences (similar_data st)
     ++ flat_map (fun c => confidences (getitem pd c))
          (joiners (used_plates st) rest))%list /\
  frames (similar_data st')
  = (frames (similar_data st)
     ++ flat_map (fun c => frames (getitem pd c))
          (joiners (used_plates st) rest))%list /\
  (forall x, In x (used_plates st') <->
             In x (used_plates st) \/ In x (joiners (used_plates st) rest)).
Proof.
  revert st. induction rest as [|c rest IH]; intros st Hnd.
  - simpl. rewrite !app_nil_r. repeat split; auto. tauto.
  - inversion Hnd as [|? ? Hc Hnd']; subst.
    cbn [fold_left]. unfold scan_step at 2 4 6 8.
    unfold joiners. cbn [filter]. fold (joiners (used_plates st) rest).
    destruct (mem c (used_plates st)) eqn:Em; cbn [negb andb].
    + apply IH. exact Hnd'.
    + destruct (Qle_bool thr (calculate_similarity seed c)) eqn:Eq.
      * destruct (IH (mkScan (similar_group st ++ [c])
                        (mkRecord
                           (confidences (similar_data st)
                              ++ confidences (getitem pd c))
                           (frames (similar_data st)
                              ++ frames (getitem pd c)))
                        (c :: used_plates st)) Hnd')
          as (G & C & F & U).
        cbn [similar_group similar_data used_plates confidences frames] in *.
        rewrite (joiners_cons_used c _ _ Hc) in *.
        rewrite G, C, F. cbn [flat_map].
        rewrite <- !app_assoc. repeat split; auto.
        -- intros H. apply U in H. simpl in H. simpl. tauto.
        -- intros H. apply U. simpl in H. simpl. tauto.
      * apply IH. exact Hnd'.
Qed.

Lemma scan_from_spec (rest used : list string) :
  NoDup rest ->
  let st := scan_from pd thr seed rest used in
  similar_group st = seed :: joiners used rest /\
  confidences (similar_data st)
  = (confidences (getitem pd seed)
     ++ flat_map (fun c => confidences (getitem pd c)) (joiners used rest))%list /\
  frames (similar_data st)
  = (frames (getitem pd seed)
     ++ flat_map (fun c => frames (getitem pd c)) (joiners used rest))%list /\
  (forall x, In x (used_plates st) <-> In x used \/ In x (joiners used rest)).
Proof.
  intros Hnd. unfold scan_from.
  apply (scan_fold rest
           (mkScan [seed]
              (mkRecord (confidences (getitem pd seed))
                 (frames (getitem pd seed))) used) Hnd).
Qed.

Lemma joiners_In (used rest : list string) (c : string) :
  In c (joiners used rest) <->
  In c rest /\ ~ In c used /\ (thr <= calculate_similarity seed c)%Q.
Proof.
  unfold joiners. rewrite filter_In, andb_true_iff, negb_true_iff.
  rewrite mem_false, Qle_bool_iff. tauto.
Qed.

End Scan.



(** ** The representative of a cluster *)

Section Representative.

Variable pd : plate_data.

(** [best] is a first maximum of the mean confidence over the texts seen
    so far: strictly above those before it, at least those after it. *)
Definition first_max (seen : list string) (best : string) (avg : Q) : Prop :=
  exists l1 l2,
    seen = (l1 ++ best :: l2)%list /\
    mean_confidence pd best = Some avg /\
    (forall p, In p l1 ->
       exists m, mean_confidence pd p = Some m /\ (m < avg)%Q) /\
    (forall p, In p l2 ->
       exists m, mean_confidence pd p = Some m /\ (m <= avg)%Q).

Lemma mean_some (l : list Q) : l <> [] -> exists m, mean l = Some m.
Proof.
  destruct l as [|x l]; [contradiction|]. intros _. eexists. reflexivity.
Qed.

Lemma best_fold (others seen : list string) (best : string) (avg : Q) :
  (forall p, In p others -> confidences (getitem pd p) <> []) ->
  first_max seen best avg ->
  exists best' avg',
    fold_left (best_step pd) others (Some (best, avg)) = Some (best', avg')
    /\ first_max (seen ++ others) best' avg'.
Proof.
  revert seen best avg.
  induction others as [|p others IH]; intros seen best avg Hne Hfm.
  - exists best, avg. rewrite app_nil_r. split; [reflexivity | exact Hfm].
  - destruct (mean_some (confidences (getitem pd p))) as [m Hm].
    { apply Hne. now left. }
    cbn [fold_left best_step]. unfold mean_confidence at 1. rewrite Hm.
    replace (seen ++ p :: others)%list with ((seen ++ [p]) ++ others)%list
      by (rewrite <- app_assoc; reflexivity).
    destruct Hfm as (l1 & l2 & Hs & Hb & H1 & H2).
    destruct (Qlt_bool avg m) eqn:Hlt.
    + apply IH; [intros q Hq; apply Hne; now right|].
      unfold Qlt_bool in Hlt. apply negb_true_iff in Hlt.
      assert (Hlt' : (avg < m)%Q).
      { apply Qnot_le_lt. intros C. apply Qle_bool_iff in C. congruence. }
      exists (l1 ++ best :: l2)%list, []. rewrite Hs.
      split; [reflexivity|]. split; [exact Hm|]. split; [|intros q []].
      intros q Hq. apply in_app_or in Hq. destruct Hq as [Hq|[<-|Hq]].
      * destruct (H1 q Hq) as (mq & E & L). exists mq. split; [exact E|].
        apply (Qlt_trans _ avg); assumption.
      * exists avg. split; assumption.
      * destruct (H2 q Hq) as (mq & E & L). exists mq. split; [exact E|].
        apply (Qle_lt_trans _ avg); assumption.
    + apply IH; [intros q Hq; apply Hne; now right|].
      unfold Qlt_bool in Hlt. apply negb_false_iff in Hlt.
      apply Qle_bool_iff in Hlt.
      exists l1, (l2 ++ [p])%list. rewrite Hs, <- app_assoc.
      split; [reflexivity|]. split; [exact Hb|]. split; [exact H1|].
      intros q Hq. apply in_app_or in Hq. destruct Hq as [Hq|[<-|[]]].
      * apply H2. exact Hq.
      * exists m. split; assumption.
Qed.

Lemma select_best_first_max (similar_group : list string) :
  similar_group <> [] ->
  (forall p, In p similar_group -> confidences (getitem pd p) <> []) ->
  exists best avg,
    select_best pd similar_group = Some (best, avg)
    /\ first_max similar_group best avg.
Proof.
  destruct similar_group as [|main others]; [contradiction|].
  intros _ Hne.
  destruct (mean_some (confidences (getitem pd main))) as [m Hm].
  { apply Hne. now left. }
  unfold select_best, mean_confidence at 1. rewrite Hm.
  apply (best_fold others [main] main m).
  - intros p Hp. apply Hne. now right.
  - exists [], []. split; [reflexivity|]. split; [exact Hm|].
    split; intros p [].
Qed.

Lemma other_plates_split (l1 l2 : list string) (best : string) :
  NoDup (l1 ++ best :: l2) ->
  other_plates (l1 ++ best :: l2) best = (l1 ++ l2)%list.
Proof.
  intros Hnd. apply NoDup_remove_2 in Hnd. unfold other_plates.
  rewrite filter_app. cbn [filter]. rewrite String.eqb_refl. cbn [negb].
  assert (Hk : forall l, ~ In best l ->
               filter (fun p => negb (String.eqb p best)) l = l).
  { induction l as [|x l IH]; intros Hn; simpl; [reflexivity|].
    destruct (String.eqb_spec x best) as [->|N].
    - exfalso. apply Hn. now left.
    - simpl. rewrite IH; [reflexivity|]. intros C. apply Hn. now right. }
  rewrite !Hk; [reflexivity| |]; intros C; apply Hnd; apply in_or_app; tauto.
Qed.

End Representative.



(** ** Sorting *)

Lemma take_map {A B : Type} (f : A -> B) (rows : list A) (idx : list nat) :
  map f (take rows idx) = take (map f rows) idx.
Proof.
  unfold take. induction idx as [|i idx IH]; simpl; [reflexivity|].
  rewrite map_app, IH, nth_error_map.
  destruct (nth_error rows i); reflexivity.
Qed.

Lemma take_cons_shift {A : Type} (x : A) (rows : list A) (idx : list nat) :
  take (x :: rows) (map S idx) = take rows idx.
Proof.
  unfold take. induction idx as [|i idx IH]; simpl; [reflexivity|].
  now rewrite IH.
Qed.

Lemma take_all {A : Type} (rows : list A) :
  take rows (seq 0 (List.length rows)) = rows.
Proof.
  induction rows as [|x rows IH]; [reflexivity|].
  cbn [List.length seq]. rewrite <- seq_shift.
  change (take (x :: rows) (0%nat :: map S (seq 0 (List.length rows))))
    with (x :: take (x :: rows) (map S (seq 0 (List.length rows)))).
  now rewrite take_cons_shift, IH.
Qed.

Lemma take_perm {A : Type} (rows : list A) (idx : list nat) :
  Permutation idx (seq 0 (List.length rows)) ->
  Permutation rows (take rows idx).
Proof.
  intros H. rewrite <- (take_all rows) at 1. unfold take.
  apply Permutation_flat_map. symmetry. exact H.
Qed.

Lemma take_nth (ks : list Q) (idx : list nat) :
  Forall (fun i => i < List.length ks)%nat idx ->
  take ks idx = map (fun i => nth i ks 0%Q) idx.
Proof.
  unfold take. induction 1 as [|i idx Hi _ IH]; simpl; [reflexivity|].
  rewrite (nth_error_nth' ks 0%Q Hi), IH. reflexivity.
Qed.

Section SortValues.

Context {S : PandasSort}.

Lemma sort_values_perm {A : Type} (key : A -> Q) (rows : list A) :
  Permutation rows (sort_values key rows).
Proof.
  unfold sort_values. apply take_perm.
  rewrite <- (length_map key). apply argsort_perm.
Qed.

Lemma sort_values_descending {A : Type} (key : A -> Q) (rows : list A) :
  descending (map key (sort_values key rows)).
Proof.
  unfold sort_values. rewrite take_map. apply argsort_sorted.
Qed.

(** The index permutation depends on the key column only. *)
Lemma sort_values_map {A B : Type} (f : A -> B) (key : A -> Q)
    (key' : B -> Q) (rows : list A) :
  (forall r, key' (f r) = key r) ->
  map f (sort_values key rows) = sort_values key' (map f rows).
Proof.
  intros H. unfold sort_values. rewrite take_map, map_map.
  rewrite (map_ext _ _ H). reflexivity.
Qed.

Lemma sort_values_one {A : Type} (key : A -> Q) (r : A) :
  sort_values key [r] = [r].
Proof.
  apply Permutation_length_1_inv. apply sort_values_perm.
Qed.

Lemma sort_values_two {A : Type} (key : A -> Q) (r1 r2 : A) :
  (key r1 < key r2)%Q -> sort_values key [r1; r2] = [r2; r1].
Proof.
  intros Hlt.
  pose proof (sort_values_perm key [r1; r2]) as Hp.
  pose proof (sort_values_descending key [r1; r2]) as Hd.
  apply Permutation_length_2_inv in Hp. destruct Hp as [E|E]; [|exact E].
  rewrite E in Hd. simpl in Hd. unfold descending in Hd.
  inversion Hd as [|? ? _ Hhd]; subst. inversion Hhd as [|? ? Hle]; subst.
  exfalso. apply (Qlt_not_le _ _ Hlt). exact Hle.
Qed.

End SortValues.

Section InsertionSort.

Variable before : Q -> Q -> bool.
Hypothesis before_true : forall x y, before x y = true -> (y <= x)%Q.
Hypothesis before_false : forall x y, before x y = false -> (x <= y)%Q.

Variable ks : list Q.

Let key (i : nat) : Q := nth i ks 0%Q.
Let ge (i j : nat) : Prop := (key j <= key i)%Q.

Lemma insert_by_perm (i : nat) (l : list nat) :
  Permutation (i :: l) (insert_by before ks i l).
Proof.
  induction l as [|j l IH]; simpl; [reflexivity|].
  destruct (before (nth i ks 0%Q) (nth j ks 0%Q)); [reflexivity|].
  rewrite perm_swap. constructor. exact IH.
Qed.

Lemma insert_by_sorted (i : nat) (l : list nat) :
  StronglySorted ge l -> StronglySorted ge (insert_by before ks i l).
Proof.
  induction 1 as [|j l Hs IH Hall]; simpl.
  - repeat constructor.
  - destruct (before (nth i ks 0%Q) (nth j ks 0%Q)) eqn:E.
    + apply before_true in E. constructor; [constructor; assumption|].
      constructor; [exact E|].
      rewrite Forall_forall in *. intros x Hx. unfold ge in *.
      apply (Qle_trans _ (key j)); [apply Hall; exact Hx | exact E].
    + apply before_false in E. constructor; [exact IH|].
      rewrite Forall_forall in *. intros x Hx.
      apply (Permutation_in _ (Permutation_sym (insert_by_perm i l))) in Hx.
      destruct Hx as [<-|Hx]; [exact E | apply Hall; exact Hx].
Qed.

Lemma argsort_fold (idx acc : list nat) :
  StronglySorted ge acc ->
  Permutation (idx ++ acc)
    (fold_left (fun acc i => insert_by before ks i acc) idx acc) /\
  StronglySorted ge
    (fold_left (fun acc i => insert_by before ks i acc) idx acc).
Proof.
  revert acc. induction idx as [|i idx IH]; intros acc Hs; simpl.
  - split; [reflexivity | exact Hs].
  - destruct (IH (insert_by before ks i acc) (insert_by_sorted i acc Hs))
      as [Hp Hs'].
    split; [|exact Hs'].
    rewrite <- Hp. rewrite <- insert_by_perm.
    apply Permutation_middle.
Qed.

Lemma argsort_by_perm :
  Permutation (argsort_by before ks) (seq 0 (List.length ks)).
Proof.
  unfold argsort_by.
  destruct (argsort_fold (seq 0 (List.length ks)) []) as [Hp _];
    [constructor|].
  rewrite app_nil_r in Hp. symmetry. exact Hp.
Qed.

Lemma argsort_by_sorted : descending (take ks (argsort_by before ks)).
Proof.
  assert (Hall : Forall (fun i => i < List.length ks)%nat
                   (argsort_by before ks)).
  { apply Forall_forall. intros i Hi.
    apply (Permutation_in _ argsort_by_perm) in Hi.
    apply in_seq in Hi. lia. }
  rewrite (take_nth _ _ Hall). apply StronglySorted_Sorted.
  unfold argsort_by.
  destruct (argsort_fold (seq 0 (List.length ks)) []) as [_ Hs];
    [constructor|].
  clear Hall. induction Hs as [|j l Hs IH Hj]; simpl; constructor.
  - exact IH.
  - rewrite Forall_forall in *. intros x Hx. apply in_map_iff in Hx.
    destruct Hx as (i & <- & Hi). apply (Hj i Hi).
Qed.

End InsertionSort.

Lemma Qlt_bool_true (x y : Q) : Qlt_bool x y = true -> (x < y)%Q.
Proof.
  unfold Qlt_bool. intros H. apply negb_true_iff in H.
  apply Qnot_le_lt. intros C. apply Qle_bool_iff in C. congruence.
Qed.

Lemma Qlt_bool_false (x y : Q) : Qlt_bool x y = false -> (y <= x)%Q.
Proof.
  unfold Qlt_bool. intros H. apply negb_false_iff in H.
  apply Qle_bool_iff. exact H.
Qed.


(** A stable sort meets the interface. *)
Definition stable_sort : PandasSort.
Proof.
  assert (Ht : forall x y, Qlt_bool y x = true -> (y <= x)%Q).
  { intros x y H. apply Qlt_le_weak, Qlt_bool_true, H. }
  assert (Hf : forall x y, Qlt_bool y x = false -> (x <= y)%Q).
  { intros x y H. apply Qlt_bool_false, H. }
  refine {| argsort_desc := argsort_desc_stable |}.
  - intros ks. apply (argsort_by_perm _ Ht Hf).
  - intros ks. apply (argsort_by_sorted _ Ht Hf).
Defined.


(** ** The pipeline returns a table on every log that can be read *)

Lemma getitem_In (pd : plate_data) (p : string) (r : record) :
  NoDup (keys pd) -> In (p, r) pd -> getitem pd p = r.
Proof.
  induction pd as [|[k r'] pd IH]; intros Hnd Hin; [destruct Hin|].
  simpl in Hnd. inversion Hnd as [|? ? Hk Hnd']; subst. simpl.
  destruct Hin as [E|Hin].
  - inversion E; subst. now rewrite String.eqb_refl.
  - destruct (String.eqb_spec k p) as [->|N]; [|apply IH; assumption].
    exfalso. apply Hk. apply (in_map fst) in Hin. exact Hin.
Qed.

Lemma getitem_key (P : record -> Prop) (pd : plate_data) (p : string) :
  Forall (fun kr => P (snd kr)) pd -> In p (keys pd) -> P (getitem pd p).
Proof.
  induction 1 as [|[k r] pd Hr _ IH]; intros Hin; [destruct Hin|].
  simpl. destruct (String.eqb_spec k p) as [->|N]; [exact Hr|].
  destruct Hin as [E|Hin]; [contradiction | apply IH; exact Hin].
Qed.

Definition has_events (pd : plate_data) (p : string) : Prop :=
  confidences (getitem pd p) <> [] /\ frames (getitem pd p) <> [].

Lemma record_ok_has_events (pd : plate_data) (p : string) :
  Forall (fun kr => record_ok (snd kr)) pd -> In p (keys pd) ->
  has_events pd p.
Proof.
  intros Hall Hin.
  destruct (getitem_key record_ok pd p Hall Hin) as (H1 & H2 & _).
  unfold has_events.
  destruct (confidences (getitem pd p)), (frames (getitem pd p));
    simpl in *; try lia; split; discriminate.
Qed.

Definition group_ok (g : group) : Prop :=
  all_confidences g <> [] /\ all_frames g <> [].

Lemma app_not_nil {A : Type} (l l' : list A) : l <> [] -> (l ++ l')%list <> [].
Proof. destruct l; [contradiction | discriminate]. Qed.

Lemma group_loop_total (pd : plate_data) (thr : Q)
    (plates used : list string) (results : list group) :
  NoDup plates -> (forall p, In p plates -> has_events pd p) ->
  Forall group_ok results ->
  exists gs, group_loop pd thr plates used results = Some gs
             /\ Forall group_ok gs.
Proof.
  revert used results.
  induction plates as [|main rest IH]; intros used results Hnd Hev Hres.
  - exists results. split; [reflexivity | exact Hres].
  - inversion Hnd as [|? ? Hm Hnd']; subst. cbn [group_loop].
    assert (Hev' : forall p, In p rest -> has_events pd p)
      by (intros p Hp; apply Hev; now right).
    destruct (mem main used); [apply IH; assumption|].
    destruct (scan_from_spec pd thr main rest used Hnd') as (G & C & F & _).
    destruct (select_best_first_max pd
                (similar_group (scan_from pd thr main rest used)))
      as (best & avg & E & _).
    { rewrite G. discriminate. }
    { rewrite G. intros p [<-|Hp].
      - apply Hev. now left.
      - apply joiners_In in Hp. apply Hev'. tauto. }
    rewrite E. apply IH; auto.
    apply Forall_app. split; [exact Hres|]. constructor; [|constructor].
    unfold group_ok. cbn [all_confidences all_frames]. rewrite C, F.
    split; apply app_not_nil; apply Hev; now left.
Qed.

Lemma stats_total (cs : list Q) (fs : list Z) :
  cs <> [] -> fs <> [] ->
  exists m lo hi,
    mean cs = Some m /\ list_min fs = Some lo /\ list_max fs = Some hi /\
    stats cs fs = Some (round2 m, lo, hi, List.length fs).
Proof.
  intros Hc Hf. unfold stats.
  destruct cs as [|c cs]; [contradiction|].
  destruct fs as [|f fs]; [contradiction|].
  do 3 eexists. repeat split; reflexivity.
Qed.

Lemma build_results_total (gs : list group) (acc : list row) :
  Forall group_ok gs ->
  exists rows, fold_left results_step gs (Some acc) = Some rows.
Proof.
  intros H. revert acc. induction H as [|g gs [Hc Hf] _ IH]; intros acc.
  - exists acc. reflexivity.
  - cbn [fold_left results_step].
    destruct (stats_total _ _ Hc Hf) as (m & lo & hi & _ & _ & _ & E).
    rewrite E. destruct (all_frames g); [contradiction|]. apply IH.
Qed.

Lemma parsed_total (lines : list string) (thr : Q) :
  exists grouped results,
    group_similar_plates (snd (parse_lines lines)) thr = Some grouped /\
    build_results grouped = Some results.
Proof.
  destruct (parse_lines_ok lines) as (_ & Hnd & Hall).
  destruct (group_loop_total (snd (parse_lines lines)) thr
              (keys (snd (parse_lines lines))) [] [] Hnd)
    as (gs & E & Hgs).
  - intros p Hp. apply record_ok_has_events; assumption.
  - constructor.
  - destruct (build_results_total gs [] Hgs) as (rows & E').
    exists gs, rows. split; assumption.
Qed.

(** The table returned for a log that was read. *)
Definition table {S : PandasSort} (results : list row) : DataFrame :=
  match results with
  | [] => []
  | _ => sort_values confidence_level results
  end.

Lemma parse_read_ok {S : PandasSort} (fs : filesystem) (file_path : string)
    (thr : Q) (lines : list string) (grouped : list group)
    (results : list row) :
  fs file_path = ReadOk lines ->
  group_similar_plates (snd (parse_lines lines)) thr = Some grouped ->
  build_results grouped = Some results ->
  parse_license_plate_log fs file_path thr = ([], Some (table results)).
Proof.
  intros Hfs Hg Hb. unfold parse_license_plate_log. rewrite Hfs.
  destruct (parse_lines lines) as [cf pd]. simpl in Hg.
  rewrite Hg. unfold lift, bind. rewrite Hb.
  unfold table. destruct results; reflexivity.
Qed.

Lemma table_perm {S : PandasSort} (results : list row) :
  Permutation results (table results).
Proof.
  destruct results as [|r results]; [constructor|].
  apply sort_values_perm.
Qed.


(** ** The end-to-end example *)

(** C1: on the six-line example log with threshold 80.0, whatever sort
    meets the interface, the table has exactly one row: plate [AI3NR0],
    similar plates [AI3NRU], confidence level 83.22, first frame 1, last
    frame 5, three detections; with threshold 100.0 it has two rows, one
    per text, each with its own statistics. *)
Theorem example_log_summary (S : PandasSort) (file_path : string) :
  let fs : filesystem := fun _ => ReadOk example_log in
  group_similar_plates (snd (parse_lines example_log)) 80
  = Some [mkGroup "AI3NR0" ["AI3NRU"] [82.6628; 79.0; 88.0]%Q [1; 2; 5]%Z] /\
  parse_license_plate_log fs file_path 80
  = ([], Some [mkRow "AI3NR0" "AI3NRU" 83.22 1 5 3]) /\
  parse_license_plate_log fs file_path 100
  = ([], Some [mkRow "AI3NR0" "" (Qmake 8800 100) 5 5 1;
               mkRow "AI3NRU" "" 80.83 1 2 2]).
Proof.
  intros fs. split; [vm_compute; reflexivity|]. split.
  - rewrite (parse_read_ok fs file_path 80 example_log
               [mkGroup "AI3NR0" ["AI3NRU"] [82.6628; 79.0; 88.0]%Q
                  [1; 2; 5]%Z]
               [mkRow "AI3NR0" "AI3NRU" 83.22 1 5 3]);
      try (vm_compute; reflexivity).
    unfold table. now rewrite sort_values_one.
  - rewrite (parse_read_ok fs file_path 100 example_log
               [mkGroup "AI3NRU" [] [82.6628; 79.0]%Q [1; 2]%Z;
                mkGroup "AI3NR0" [] [88.0]%Q [5]%Z]
               [mkRow "AI3NRU" "" 80.83 1 2 2;
                mkRow "AI3NR0" "" (Qmake 8800 100) 5 5 1]);
      try (vm_compute; reflexivity).
    unfold table. rewrite sort_values_two; [reflexivity|].
    vm_compute. reflexivity.
Qed.

(** ** Logs without a frame marker *)

Lemma orphan_line_ignored (pd : plate_data) (raw : string) :
  frame_match (strip raw) = None -> parse_line (None, pd) raw = (None, pd).
Proof.
  intros H. unfold parse_line. rewrite H.
  destruct (plate_match (strip raw)) as [[plate g]|]; reflexivity.
Qed.

Lemma no_frame_fold (lines : list string) (pd : plate_data) :
  (forall l, In l lines -> frame_match (strip l) = None) ->
  fold_left parse_line lines (None, pd) = (None, pd).
Proof.
  induction lines as [|l lines IH]; intros H; cbn [fold_left];
    [reflexivity|].
  rewrite orphan_line_ignored by (apply H; now left).
  apply IH. intros l' Hl'. apply H. now right.
Qed.

(** C7: a plate-reading line met while no frame is current leaves the
    state unchanged; hence a log none of whose lines is a frame marker
    yields no event, and the table is empty. *)
Theorem no_frame_marker_no_events (lines : list string)
    (Hnf : forall l, In l lines -> frame_match (strip l) = None) :
  (forall pd raw, plate_match (strip raw) <> None ->
                  parse_line (None, pd) raw = (None, pd)) /\
  parse_lines lines = (None, []) /\
  events_of (snd (parse_lines lines)) = [] /\
  (forall (S : PandasSort) file_path thr,
      parse_license_plate_log (fun _ => ReadOk lines) file_path thr
      = ([], Some [])).
Proof.
  assert (E : parse_lines lines = (None, [])) by (apply no_frame_fold, Hnf).
  split; [|split; [exact E | split]].
  - intros pd raw H. apply orphan_line_ignored, plate_line_not_frame, H.
  - rewrite E. reflexivity.
  - intros S file_path thr.
    rewrite (parse_read_ok _ file_path thr lines [] []); auto.
    rewrite E. reflexivity.
Qed.

Lemma no_frame_marker_no_events_witness :
  parse_lines ["  - AI3NRU" ++ tab ++ " confidence: 82.6628"; "Frames: 1"]
  = (None, []) /\
  (forall (S : PandasSort) file_path thr,
      parse_license_plate_log
        (fun _ => ReadOk ["  - AI3NRU" ++ tab ++ " confidence: 82.6628";
                          "Frames: 1"]) file_path thr
      = ([], Some [])).
Proof.
  destruct (no_frame_marker_no_events
              ["  - AI3NRU" ++ tab ++ " confidence: 82.6628"; "Frames: 1"])
    as (_ & H1 & _ & H2).
  - intros l [<-|[<-|[]]]; vm_compute; reflexivity.
  - split; [exact H1 | exact H2].
Defined.

(** ** Errors and the early exit of [main] *)

Lemma main_no_data {S : PandasSort} (fs : filesystem) (input_file : string)
    (thr : Q) (t : list effect) :
  parse_license_plate_log fs input_file thr = (t, Some []) ->
  main fs input_file thr
  = ((PrintParsing input_file :: PrintThreshold thr :: t ++ [PrintNoData])%list,
     Some tt).
Proof.
  intros H. unfold main. destruct (output_names input_file) as [o r].
  unfold bind at 1. cbn [emit]. unfold bind at 1. cbn [emit].
  rewrite H. unfold bind, emit. reflexivity.
Qed.

(** C8: when the log file does not exist, or reading it fails at any
    point, parsing reports the error and returns the empty table, whatever
    had been read before the failure; whenever parsing returns the empty
    table (after an error or for a log without clusters), [main] reports
    that there is no data and stops, and no output file is written. *)
Theorem unreadable_or_empty_log_writes_nothing (S : PandasSort)
    (fs : filesystem) (input_file : string) (thr : Q) :
  (fs input_file = FileNotFound ->
   parse_license_plate_log fs input_file thr
   = ([PrintFileNotFound input_file], Some [])) /\
  (forall read, fs input_file = ReadError read ->
   parse_license_plate_log fs input_file thr = ([PrintReadError], Some [])) /\
  (forall t, parse_license_plate_log fs input_file thr = (t, Some []) ->
   main fs input_file thr
   = ((PrintParsing input_file :: PrintThreshold thr :: t
         ++ [PrintNoData])%list, Some tt) /\
   existsb writes_file (fst (main fs input_file thr)) = false).
Proof.
  assert (Hnw : existsb writes_file
                  (fst (parse_license_plate_log fs input_file thr)) = false).
  { unfold parse_license_plate_log. destruct (fs input_file) as [|read|lines];
      try reflexivity.
    destruct (parse_lines lines) as [cf pd]. unfold lift, bind.
    destruct (group_similar_plates pd thr) as [g|]; [|reflexivity].
    destruct (build_results g) as [[|r rs]|]; reflexivity. }
  split; [|split].
  - intros H. unfold parse_license_plate_log. rewrite H. reflexivity.
  - intros read H. unfold parse_license_plate_log. rewrite H. reflexivity.
  - intros t H. rewrite (main_no_data fs input_file thr t H).
    split; [reflexivity|]. rewrite H in Hnw. cbn [fst] in Hnw.
    cbn [fst existsb writes_file orb]. rewrite existsb_app, Hnw. reflexivity.
Qed.

Lemma unreadable_or_empty_log_writes_nothing_witness :
  main (S := stable_sort) (fun _ => ReadError ["Frame: 1"]) "log.txt" 80
  = ([PrintParsing "log.txt"; PrintThreshold 80; PrintReadError;
      PrintNoData], Some tt) /\
  existsb writes_file
    (fst (main (S := stable_sort) (fun _ => ReadError ["Frame: 1"])
            "log.txt" 80))
  = false.
Proof.
  destruct (unreadable_or_empty_log_writes_nothing stable_sort
              (fun _ => ReadError ["Frame: 1"]) "log.txt" 80)
    as (_ & H2 & H3).
  apply (H3 [PrintReadError]). apply (H2 ["Frame: 1"]). reflexivity.
Defined.

(** ** Order of the rows *)






(** ** Threshold 100: the grouping variant against the non-grouping one *)

Lemma joiners_100_nil (seed : string) (used rest : list string) :
  ~ In seed rest -> joiners 100 seed used rest = [].
Proof.
  intros H. unfold joiners. induction rest as [|c rest IH]; [reflexivity|].
  cbn [filter].
  destruct (Qle_bool 100 (calculate_similarity seed c)) eqn:E.
  - apply threshold_100_iff in E. subst c. exfalso. apply H. now left.
  - rewrite andb_false_r. apply IH. intros C. apply H. now right.
Qed.

(** The cluster of a text alone. *)
Definition singleton_group (pd : plate_data) (p : string) : group :=
  mkGroup p [] (confidences (getitem pd p)) (frames (getitem pd p)).

Lemma group_loop_100 (pd : plate_data) (plates used : list string)
    (results : list group) :
  NoDup plates -> (forall p, In p plates -> ~ In p used) ->
  (forall p, In p plates -> confidences (getitem pd p) <> []) ->
  group_loop pd 100 plates used results
  = Some (results ++ map (singleton_group pd) plates)%list.
Proof.
  revert used results.
  induction plates as [|main rest IH]; intros used results Hnd Hu Hev.
  - simpl. now rewrite app_nil_r.
  - inversion Hnd as [|? ? Hm Hnd']; subst. cbn [group_loop].
    assert (Em : mem main used = false).
    { apply mem_false. apply Hu. now left. }
    rewrite Em.
    destruct (scan_from_spec pd 100 main rest used Hnd') as (G & C & F & U).
    rewrite (joiners_100_nil main used rest Hm) in G, C, F, U.
    cbn [flat_map] in C, F. rewrite app_nil_r in C, F.
    rewrite G, C, F.
    destruct (mean_some (confidences (getitem pd main))) as [m Hmn].
    { apply Hev. now left. }
    unfold select_best, mean_confidence. rewrite Hmn. cbn [fold_left].
    unfold other_plates. cbn [filter]. rewrite String.eqb_refl. cbn [negb].
    rewrite IH.
    + cbn [map]. rewrite <- app_assoc. reflexivity.
    + exact Hnd'.
    + intros p Hp [<-|Hin]; [contradiction|].
      apply U in Hin. destruct Hin as [Hin|[]].
      apply (Hu p); [now right | exact Hin].
    + intros p Hp. apply Hev. now right.
Qed.

Lemma singleton_groups_of_items (pd : plate_data) :
  NoDup (keys pd) ->
  map (singleton_group pd) (keys pd)
  = map (fun kr => mkGroup (fst kr) [] (confidences (snd kr))
                     (frames (snd kr))) pd.
Proof.
  intros Hnd. unfold keys. rewrite map_map. apply map_ext_in.
  intros [p r] Hin. unfold singleton_group. cbn [fst snd].
  now rewrite (getitem_In pd p r Hnd Hin).
Qed.

(** Row by row, the two summary loops agree on the common columns. *)
Lemma build_results_common (pd : plate_data) (acc : option (list row)) :
  option_map (map common_columns)
    (fold_left results_step
       (map (fun kr => mkGroup (fst kr) [] (confidences (snd kr))
                         (frames (snd kr))) pd) acc)
  = fold_left V2.results_step pd (option_map (map common_columns) acc).
Proof.
  revert acc. induction pd as [|[p r] pd IH]; intros acc; [reflexivity|].
  cbn [map fold_left]. rewrite IH. f_equal.
  destruct acc as [results|]; [|reflexivity].
  unfold results_step, V2.results_step.
  cbn [fst snd all_frames all_confidences main_plate similar_plates
       option_map].
  destruct (frames r) as [|f fs] eqn:Ef; [reflexivity|].
  destruct (stats (confidences r) (f :: fs)) as [[[[cl lo] hi] n]|];
    [|reflexivity].
  cbn [option_map]. rewrite map_app. reflexivity.
Qed.

(** C10: with threshold 100.0, for every log, [group_similar_plates]
    returns one cluster per distinct text, in discovery order, with empty
    [similar_plates] and exactly that text's confidences and frames; and
    the rows of the grouping variant, restricted to [plate_found],
    [confidence_level], [first_frame], [last_frame] and
    [total_detections], are the rows of the non-grouping variant. *)
Theorem threshold_100_is_the_ungrouped_summary (S : PandasSort)
    (lines : list string) (file_path : string) :
  let pd := snd (parse_lines lines) in
  let fs : filesystem := fun _ => ReadOk lines in
  group_similar_plates pd 100
  = Some (map (fun kr => mkGroup (fst kr) [] (confidences (snd kr))
                           (frames (snd kr))) pd) /\
  exists rows,
    parse_license_plate_log fs file_path 100 = ([], Some rows) /\
    V2.parse_license_plate_log fs file_path
    = ([], Some (map common_columns rows)).
Proof.
  intros pd fs.
  destruct (parse_lines_ok lines) as (_ & Hnd & Hall). fold pd in Hnd, Hall.
  assert (Hg : group_similar_plates pd 100
               = Some (map (fun kr => mkGroup (fst kr) []
                                        (confidences (snd kr))
                                        (frames (snd kr))) pd)).
  { unfold group_similar_plates. rewrite group_loop_100; auto.
    - cbn [app]. now rewrite singleton_groups_of_items.
    - intros p Hp. apply (record_ok_has_events pd p Hall Hp). }
  split; [exact Hg|].
  destruct (parsed_total lines 100) as (grouped & results & Hg' & Hb).
  fold pd in Hg'. rewrite Hg in Hg'. inversion Hg'; subst grouped.
  exists (table results).
  split; [apply (parse_read_ok fs file_path 100 lines _ results eq_refl Hg Hb)|].
  pose proof (build_results_common pd (Some [])) as Hc.
  unfold build_results in Hb. rewrite Hb in Hc. cbn [option_map map] in Hc.
  unfold V2.parse_license_plate_log, V2.build_results, fs.
  destruct (parse_lines lines) as [cf pd0]. cbn [snd] in pd. subst pd.
  rewrite <- Hc. unfold lift, bind, ret, table.
  destruct results as [|r results]; [reflexivity|].
  cbn [map app]. do 2 f_equal. symmetry.
  apply (sort_values_map common_columns confidence_level
           V2.confidence_level (r :: results)).
  intros r0. reflexivity.
Qed.

(** * Further properties of the code *)

(** ** The similarity score *)

Lemma ratio_bounds (a b : list ascii) :
  (0 <= Difflib.ratio a b)%Q /\ (Difflib.ratio a b <= 1)%Q.
Proof.
  unfold Difflib.ratio.
  destruct (Nat.eqb_spec (List.length a + List.length b) 0) as [E|E].
  - split; discriminate.
  - pose proof (DifflibFacts.matches_bound a b) as Hb.
    set (T := (List.length a + List.length b)%nat) in *.
    set (M := Difflib.matches a b) in *.
    assert (HT : (0 < inject_Z (Z.of_nat T))%Q).
    { change 0%Q with (inject_Z 0). rewrite <- Zlt_Qlt. lia. }
    assert (HM : (0 <= 2 * inject_Z (Z.of_nat M))%Q).
    { change 2%Q with (inject_Z 2). rewrite <- inject_Z_mult.
      change 0%Q with (inject_Z 0). rewrite <- Zle_Qle. lia. }
    split.
    + apply Qle_shift_div_l; [exact HT|]. rewrite Qmult_0_l. exact HM.
    + apply Qle_shift_div_r; [exact HT|]. rewrite Qmult_1_l.
      change 2%Q with (inject_Z 2). rewrite <- inject_Z_mult.
      rewrite <- Zle_Qle. lia.
Qed.

(** X1: the similarity of any two strings lies between 0 and 100. *)
Theorem similarity_between_0_and_100 (plate1 plate2 : string) :
  (0 <= calculate_similarity plate1 plate2)%Q /\
  (calculate_similarity plate1 plate2 <= 100)%Q.
Proof.
  unfold calculate_similarity.
  destruct (ratio_bounds (list_ascii_of_string plate1)
              (list_ascii_of_string plate2)) as [H0 H1].
  split.
  - apply Qmult_le_0_compat; [exact H0 | discriminate].
  - change 100%Q with (1 * 100)%Q at 2.
    apply Qmult_le_compat_r; [exact H1 | discriminate].
Qed.

(** X2: the similarity is 100 exactly when the two strings are equal. *)
Theorem similarity_100_iff_equal (plate1 plate2 : string) :
  (calculate_similarity plate1 plate2 == 100)%Q <-> plate1 = plate2.
Proof.
  split.
  - intros H. apply similarity_100_eq. rewrite H. apply Qle_refl.
  - intros ->. apply similarity_self.
Qed.

Lemma no_common_no_match (a b : list ascii) (alo ahi blo bhi : nat) :
  (forall c, In c a -> ~ In c b) ->
  (alo <= ahi <= List.length a)%nat -> (blo <= bhi <= List.length b)%nat ->
  snd (Difflib.find_longest_match a b alo ahi blo bhi) = 0%nat.
Proof.
  intros Hd Ha Hb.
  pose proof (DifflibFacts.find_longest_match_ok a b alo ahi blo bhi
                (proj1 Ha) (proj1 Hb)) as H.
  destruct (Difflib.find_longest_match a b alo ahi blo bhi) as [[i j] k].
  unfold DifflibFacts.match_ok in H. destruct H as (H1 & H2 & H3 & H4 & H5).
  simpl. destruct k as [|k]; [reflexivity|]. exfalso.
  specialize (H5 0%nat (Nat.lt_0_succ k)). rewrite !Nat.add_0_r in H5.
  apply (Hd (Difflib.geta a i)).
  - unfold Difflib.geta. apply nth_In. lia.
  - rewrite H5. unfold Difflib.getb. apply nth_In. lia.
Qed.

Lemma no_common_matches (a b : list ascii) :
  (forall c, In c a -> ~ In c b) -> Difflib.matches a b = 0%nat.
Proof.
  intros Hd. rewrite DifflibFacts.matches_total.
  unfold Difflib.matching_blocks.
  replace (2 * List.length a + 1)%nat with (S (2 * List.length a)) by lia.
  cbn [Difflib.gmb_loop Difflib.gmb_step].
  pose proof (no_common_no_match a b 0 (List.length a) 0 (List.length b) Hd)
    as H.
  destruct (Difflib.find_longest_match a b 0 (List.length a) 0
              (List.length b)) as [[i j] k].
  simpl in H. rewrite H by lia. cbn [Nat.eqb].
  destruct (2 * List.length a)%nat; reflexivity.
Qed.

(** X3: two strings without a common character, not both empty, have
    similarity 0. *)
Theorem similarity_of_disjoint_strings (plate1 plate2 : string)
    (Hne : plate1 <> "" \/ plate2 <> "")
    (Hd : forall c, In c (list_ascii_of_string plate1) ->
                    ~ In c (list_ascii_of_string plate2)) :
  (calculate_similarity plate1 plate2 == 0)%Q.
Proof.
  unfold calculate_similarity, Difflib.ratio.
  rewrite (no_common_matches _ _ Hd).
  destruct (Nat.eqb_spec (List.length (list_ascii_of_string plate1)
                          + List.length (list_ascii_of_string plate2)) 0)
    as [E|E].
  - exfalso. destruct plate1, plate2; simpl in E; try lia.
    destruct Hne as [H|H]; apply H; reflexivity.
  - unfold Qdiv. rewrite Qmult_0_r, !Qmult_0_l. reflexivity.
Qed.

Lemma similarity_of_disjoint_strings_witness :
  (calculate_similarity "ABC123" "XYZ999" == 0)%Q.
Proof.
  apply (similarity_of_disjoint_strings "ABC123" "XYZ999").
  - left. discriminate.
  - intros c H1 H2. simpl in H1, H2.
    repeat (destruct H1 as [<-|H1];
            [repeat (destruct H2 as [H2|H2]; [discriminate H2|]);
             exact H2|]).
    exact H1.
Defined.

(** ** The parser, line by line *)

Lemma parse_fold_inv (P : parse_state -> Prop) (lines : list string) :
  (forall st raw, In raw lines -> P st -> P (parse_line st raw)) ->
  forall ls st, incl ls lines -> P st -> P (fold_left parse_line ls st).
Proof.
  intros Hstep. induction ls as [|l ls IH]; intros st Hin H; simpl; auto.
  apply IH.
  - intros x Hx. apply Hin. now right.
  - apply Hstep; [apply Hin; now left | exact H].
Qed.

Lemma plate_match_plate (line plate : string) (g : string * bool * string) :
  plate_match line = Some (plate, g) ->
  plate <> "" /\ all_chars isplatechar plate = true.
Proof.
  unfold plate_match. destruct (span isspace line) as [w0 r0].
  destruct (literal "-" r0) as [r1|]; [|discriminate].
  destruct (span isspace r1) as [w1 r2].
  pose proof (span_all isplatechar r2) as Hp.
  destruct (span isplatechar r2) as [pl r3]. simpl in Hp.
  destruct pl as [|c pl]; [discriminate|].
  destruct (span isspace r3) as [ws r4].
  destruct ws; [discriminate|].
  destruct (literal "confidence:" r4) as [r5|]; [|discriminate].
  destruct (span isspace r5) as [w5 r6].
  destruct (span isdigit r6) as [ip0 r7].
  destruct ip0; [discriminate|].
  destruct (literal "." r7) as [r8|].
  - destruct (span isdigit r8) as [fp0 r9].
    intros E. inversion E; subst. split; [discriminate | exact Hp].
  - intros E. inversion E; subst. split; [discriminate | exact Hp].
Qed.

Lemma append_event_key_Forall (P : string -> Prop) (pd : plate_data)
    (k : string) (c : Q) (f : Z) :
  P k -> Forall P (keys pd) -> Forall P (keys (append_event pd k c f)).
Proof.
  intros Hk H. rewrite append_event_keys.
  destruct (mem k (keys pd)); [exact H|].
  apply Forall_app. split; [exact H | repeat constructor; exact Hk].
Qed.

(** X4: every plate text the parser records is a non-empty string of
    upper-case letters and digits. *)
Theorem parsed_plate_texts_are_uppercase_alphanumeric (lines : list string)
    (p : string) (H : In p (keys (snd (parse_lines lines)))) :
  p <> "" /\ all_chars isplatechar p = true.
Proof.
  assert (Hall : Forall (fun k => k <> "" /\ all_chars isplatechar k = true)
                   (keys (snd (parse_lines lines)))).
  { unfold parse_lines.
    apply (parse_fold_inv
             (fun st => Forall (fun k => k <> ""
                                         /\ all_chars isplatechar k = true)
                          (keys (snd st))) lines).
    - intros [cf pd] raw _ Hst. unfold parse_line.
      destruct (frame_match (strip raw)); [exact Hst|].
      destruct (plate_match (strip raw)) as [[plate g]|] eqn:E; [|exact Hst].
      destruct cf as [frame|]; [|exact Hst].
      cbn [snd]. rewrite append_frame_confidence.
      apply append_event_key_Forall; [|exact Hst].
      apply (plate_match_plate _ _ _ E).
    - apply incl_refl.
    - constructor. }
  rewrite Forall_forall in Hall. apply Hall. exact H.
Qed.

Lemma parsed_plate_texts_are_uppercase_alphanumeric_witness :
  "AI3NR0" <> "" /\ all_chars isplatechar "AI3NR0" = true.
Proof.
  apply (parsed_plate_texts_are_uppercase_alphanumeric example_log "AI3NR0").
  vm_compute. right. left. reflexivity.
Defined.

(** The frame numbers announced by the markers of a log. *)
Definition announced (lines : list string) (f : Z) : Prop :=
  exists l ds, In l lines /\ frame_match (strip l) = Some ds
               /\ f = int_of_digits ds.

(** X5: the frame number of every event is the number of some frame
    marker of the log. *)
Theorem event_frames_come_from_markers (lines : list string) (f : Z)
    (p : string) (c : Q)
    (H : In (f, p, c) (events_of (snd (parse_lines lines)))) :
  exists l ds, In l lines /\ frame_match (strip l) = Some ds
               /\ f = int_of_digits ds.
Proof.
  assert (Hinv : (forall f0, fst (parse_lines lines) = Some f0 ->
                             announced lines f0) /\
                 Forall (fun kr => Forall (announced lines) (frames (snd kr)))
                   (snd (parse_lines lines))).
  { unfold parse_lines.
    apply (parse_fold_inv
             (fun st => (forall f0, fst st = Some f0 -> announced lines f0) /\
                        Forall (fun kr => Forall (announced lines)
                                            (frames (snd kr))) (snd st))
             lines).
    - intros [cf pd] raw Hraw [Hcf Hpd]. unfold parse_line.
      destruct (frame_match (strip raw)) as [ds|] eqn:Ef.
      + split; [|exact Hpd]. intros f0 E. inversion E; subst.
        exists raw, ds. auto.
      + destruct (plate_match (strip raw)) as [[plate g]|];
          [|split; assumption].
        destruct cf as [frame|]; [|split; assumption].
        split; [exact Hcf|]. cbn [snd]. rewrite append_frame_confidence.
        apply (append_event_Forall
                 (fun r => Forall (announced lines) (frames r)));
          [| |exact Hpd].
        * repeat constructor. apply Hcf. reflexivity.
        * intros r Hr. cbn [frames]. apply Forall_app. split; [exact Hr|].
          repeat constructor. apply Hcf. reflexivity.
    - apply incl_refl.
    - split; [discriminate | constructor]. }
  destruct Hinv as [_ Hall].
  apply events_of_In in H. destruct H as (r & Hr & _ & Hf).
  rewrite Forall_forall in Hall. specialize (Hall (p, r) Hr).
  rewrite Forall_forall in Hall. apply (Hall f Hf).
Qed.

Lemma event_frames_come_from_markers_witness :
  exists l ds, In l example_log /\ frame_match (strip l) = Some ds
               /\ 5%Z = int_of_digits ds.
Proof.
  apply (event_frames_come_from_markers example_log 5%Z "AI3NR0" 88.0%Q).
  vm_compute. right. right. left. reflexivity.
Defined.

(** *** White space around a line *)

Lemma lstrip_spaces (ws s : string) :
  all_chars isspace ws = true -> lstrip (ws ++ s) = lstrip s.
Proof.
  induction ws as [|c ws IH]; simpl; intros H; [reflexivity|].
  apply andb_prop in H. destruct H as [Hc Hws]. rewrite Hc. apply IH, Hws.
Qed.

Lemma rstrip_all_spaces (ws : string) :
  all_chars isspace ws = true -> rstrip ws = "".
Proof.
  induction ws as [|c ws IH]; simpl; intros H; [reflexivity|].
  apply andb_prop in H. destruct H as [Hc Hws].
  rewrite (IH Hws), Hc. reflexivity.
Qed.

Lemma rstrip_spaces (s ws : string) :
  all_chars isspace ws = true -> rstrip (s ++ ws) = rstrip s.
Proof.
  intros H. induction s as [|c s IH]; simpl.
  - apply rstrip_all_spaces, H.
  - rewrite IH. reflexivity.
Qed.

Lemma lstrip_all_spaces (ws : string) :
  all_chars isspace ws = true -> lstrip ws = "".
Proof.
  induction ws as [|c ws IH]; simpl; intros H; [reflexivity|].
  apply andb_prop in H. destruct H as [Hc Hws]. rewrite Hc. apply IH, Hws.
Qed.

Lemma strip_padding (ws1 s ws2 : string) :
  all_chars isspace ws1 = true -> all_chars isspace ws2 = true ->
  strip (ws1 ++ s ++ ws2) = strip s.
Proof.
  intros H1 H2. unfold strip. rewrite (lstrip_spaces _ _ H1).
  induction s as [|c s IH]; simpl.
  - rewrite (lstrip_all_spaces _ H2). reflexivity.
  - destruct (isspace c); [exact IH|].
    change (String c (s ++ ws2)) with (String c s ++ ws2).
    apply rstrip_spaces, H2.
Qed.

(** X6: white space before and after a line (indentation, the line
    terminator) never changes what the line does to the parser state. *)
Theorem padding_does_not_change_parsing (st : parse_state)
    (ws1 raw ws2 : string)
    (H1 : all_chars isspace ws1 = true) (H2 : all_chars isspace ws2 = true) :
  parse_line st (ws1 ++ raw ++ ws2) = parse_line st raw.
Proof.
  destruct st as [cf pd]. unfold parse_line.
  rewrite (strip_padding ws1 raw ws2 H1 H2). reflexivity.
Qed.

Lemma padding_does_not_change_parsing_witness :
  parse_line (Some 7%Z, []) ("  " ++ "- AB1 confidence: 9" ++ tab)
  = parse_line (Some 7%Z, []) "- AB1 confidence: 9".
Proof.
  apply (padding_does_not_change_parsing (Some 7%Z, []) "  "
           "- AB1 confidence: 9" tab); reflexivity.
Defined.

(** *** Counting the readings *)








(** ** The clusters as a whole *)

(** The texts of a cluster: the representative, then the others. *)
Definition members (g : group) : list string :=
  main_plate g :: similar_plates g.

(** [g] is the entry built from the cluster [cl] (its texts in discovery
    order, the seed first). *)
Definition entry_of (pd : plate_data) (g : group) (cl : list string) : Prop :=
  NoDup cl /\
  (exists avg, select_best pd cl = Some (main_plate g, avg)) /\
  similar_plates g = other_plates cl (main_plate g) /\
  all_confidences g = flat_map (fun p => confidences (getitem pd p)) cl /\
  all_frames g = flat_map (fun p => frames (getitem pd p)) cl.

Lemma filter_split {A : Type} (p q : A -> bool) (l : list A) :
  Permutation (filter (fun x => p x && q x) l
               ++ filter (fun x => p x && negb (q x)) l)
    (filter p l).
Proof.
  induction l as [|x l IH]; simpl; [constructor|].
  destruct (p x), (q x); simpl; auto.
  rewrite <- Permutation_middle. constructor. exact IH.
Qed.

Lemma joiners_NoDup (thr : Q) (seed : string) (used rest : list string) :
  NoDup rest -> NoDup (joiners thr seed used rest).
Proof. intros H. unfold joiners. apply NoDup_filter, H. Qed.

Lemma group_loop_clusters (pd : plate_data) (thr : Q)
    (plates used : list string) (results : list group) :
  NoDup plates ->
  (forall p, In p plates -> confidences (getitem pd p) <> []) ->
  exists gs cls,
    group_loop pd thr plates used results = Some (results ++ gs)%list /\
    Forall2 (entry_of pd) gs cls /\
    Permutation (concat cls) (filter (fun p => negb (mem p used)) plates).
Proof.
  revert used results.
  induction plates as [|main rest IH]; intros used results Hnd Hev.
  - exists [], []. rewrite app_nil_r. repeat split; constructor.
  - inversion Hnd as [|? ? Hm Hnd']; subst.
    assert (Hev' : forall p, In p rest -> confidences (getitem pd p) <> [])
      by (intros p Hp; apply Hev; now right).
    cbn [group_loop filter].
    destruct (mem main used) eqn:Em; cbn [negb].
    { apply IH; assumption. }
    destruct (scan_from_spec pd thr main rest used Hnd') as (G & C & F & U).
    set (st := scan_from pd thr main rest used) in *.
    assert (Hcl : NoDup (main :: joiners thr main used rest)).
    { constructor; [|apply joiners_NoDup, Hnd'].
      intros Hin. apply joiners_In in Hin. tauto. }
    destruct (select_best_first_max pd (similar_group st))
      as (best & avg & E & _).
    { rewrite G. discriminate. }
    { rewrite G. intros p [<-|Hp].
      - apply Hev. now left.
      - apply joiners_In in Hp. apply Hev'. tauto. }
    rewrite E.
    destruct (IH (main :: used_plates st)
                (results ++
                   [mkGroup best (other_plates (similar_group st) best)
                      (confidences (similar_data st))
                      (frames (similar_data st))])%list Hnd' Hev')
      as (gs & cls & Eg & Hrel & Hperm).
    exists (mkGroup best (other_plates (similar_group st) best)
              (confidences (similar_data st)) (frames (similar_data st))
            :: gs),
           ((main :: joiners thr main used rest) :: cls).
    split; [rewrite Eg, <- app_assoc; reflexivity|]. split.
    + constructor; [|exact Hrel].
      unfold entry_of. cbn [main_plate similar_plates all_confidences
                              all_frames].
      rewrite <- G. split; [rewrite G; exact Hcl|].
      split; [exists avg; exact E|]. split; [reflexivity|].
      rewrite C, F, G. split; reflexivity.
    + cbn [concat app]. constructor.
      rewrite Hperm.
      rewrite (filter_ext_in
                 (fun p => negb (mem p (main :: used_plates st)))
                 (fun p => negb (mem p used)
                           && negb (Qle_bool thr
                                      (calculate_similarity main p)))).
      * unfold joiners. apply filter_split.
      * intros p Hp.
        assert (Hne : main <> p) by (intros ->; contradiction).
        destruct (mem p (main :: used_plates st)) eqn:E1;
          destruct (mem p used) eqn:E2;
          destruct (Qle_bool thr (calculate_similarity main p)) eqn:E3;
          try reflexivity; exfalso.
        -- apply mem_In in E1. destruct E1 as [E1|E1]; [contradiction|].
           apply U in E1. apply mem_false in E2.
           destruct E1 as [E1|E1]; [contradiction|].
           apply joiners_In in E1. destruct E1 as (_ & _ & E1).
           apply Qle_bool_iff in E1. congruence.
        -- apply mem_false in E1. apply E1. right. apply U. left.
           apply mem_In. exact E2.
        -- apply mem_false in E1. apply E1. right. apply U. left.
           apply mem_In. exact E2.
        -- apply mem_false in E1. apply E1. right. apply U. right.
           apply joiners_In. apply mem_false in E2.
           apply Qle_bool_iff in E3. tauto.
Qed.

Lemma entry_members (pd : plate_data) (g : group) (cl : list string) :
  (forall p, In p cl -> confidences (getitem pd p) <> []) ->
  entry_of pd g cl -> Permutation (members g) cl.
Proof.
  intros Hev (Hnd & [avg E] & Hs & _).
  destruct cl as [|x cl']; [discriminate E|].
  destruct (select_best_first_max pd (x :: cl'))
    as (best & avg' & E' & l1 & l2 & Hsplit & _);
    [discriminate | exact Hev |].
  rewrite E in E'. inversion E'; subst best avg'.
  unfold members. rewrite Hs, Hsplit.
  rewrite other_plates_split by (rewrite <- Hsplit; exact Hnd).
  apply Permutation_middle.
Qed.

Lemma filter_unused_nil (plates : list string) :
  filter (fun p => negb (mem p [])) plates = plates.
Proof.
  induction plates as [|p l IH]; [reflexivity|].
  cbn [filter mem negb]. f_equal. exact IH.
Qed.

Lemma clusters_of (pd : plate_data) (thr : Q) :
  NoDup (keys pd) ->
  (forall p, In p (keys pd) -> confidences (getitem pd p) <> []) ->
  exists gs cls,
    group_similar_plates pd thr = Some gs /\
    Forall2 (entry_of pd) gs cls /\
    Permutation (concat cls) (keys pd).
Proof.
  intros Hnd Hev.
  destruct (group_loop_clusters pd thr (keys pd) [] [] Hnd Hev)
    as (gs & cls & E & Hrel & Hperm).
  exists gs, cls. rewrite filter_unused_nil in Hperm. auto.
Qed.

Lemma entries_members (pd : plate_data) (gs : list group)
    (cls : list (list string)) :
  (forall p, In p (concat cls) -> confidences (getitem pd p) <> []) ->
  Forall2 (entry_of pd) gs cls ->
  Permutation (flat_map members gs) (concat cls).
Proof.
  intros Hev H. induction H as [|g cl gs cls Hg _ IH]; simpl; [constructor|].
  change (main_plate g :: similar_plates g ++ flat_map members gs)
    with (members g ++ flat_map members gs)%list.
  apply Permutation_app.
  - apply (entry_members pd); [|exact Hg].
    intros p Hp. apply Hev. simpl. apply in_or_app. now left.
  - apply IH. intros p Hp. apply Hev. simpl. apply in_or_app. now right.
Qed.

(** X8: for every threshold, the clusters partition the distinct plate
    texts: listing each cluster's representative and its similar plates
    gives every text of [plate_data] exactly once. *)
Theorem clusters_partition_the_texts (pd : plate_data) (thr : Q)
    (Hnd : NoDup (keys pd))
    (Hev : forall p, In p (keys pd) -> confidences (getitem pd p) <> []) :
  exists gs,
    group_similar_plates pd thr = Some gs /\
    Permutation (flat_map (fun g => main_plate g :: similar_plates g) gs)
      (keys pd) /\
    NoDup (flat_map (fun g => main_plate g :: similar_plates g) gs).
Proof.
  destruct (clusters_of pd thr Hnd Hev) as (gs & cls & E & Hrel & Hperm).
  assert (Hm : Permutation (flat_map members gs) (keys pd)).
  { rewrite <- Hperm. apply (entries_members pd); [|exact Hrel].
    intros p Hp. apply Hev. apply (Permutation_in _ Hperm Hp). }
  exists gs. split; [exact E|]. split; [exact Hm|].
  apply (Permutation_NoDup (Permutation_sym Hm) Hnd).
Qed.

Lemma example_data_ok :
  NoDup (keys (snd (parse_lines example_log))) /\
  (forall p, In p (keys (snd (parse_lines example_log))) ->
             confidences (getitem (snd (parse_lines example_log)) p) <> []).
Proof.
  split.
  - vm_compute. constructor; [|constructor; [|constructor]].
    + intros [C|[]]. discriminate.
    + intros [].
  - intros p Hp. vm_compute in Hp.
    destruct Hp as [<-|[<-|[]]]; vm_compute; discriminate.
Defined.

Lemma clusters_partition_the_texts_witness :
  exists gs,
    group_similar_plates (snd (parse_lines example_log)) 80 = Some gs /\
    Permutation (flat_map (fun g => main_plate g :: similar_plates g) gs)
      (keys (snd (parse_lines example_log))) /\
    NoDup (flat_map (fun g => main_plate g :: similar_plates g) gs).
Proof.
  apply (clusters_partition_the_texts (snd (parse_lines example_log)) 80
           (proj1 example_data_ok) (proj2 example_data_ok)).
Defined.

Lemma entries_data {A : Type} (pd : plate_data) (f : record -> list A)
    (h : group -> list A) (gs : list group) (cls : list (list string)) :
  (forall g cl, entry_of pd g cl ->
                h g = flat_map (fun p => f (getitem pd p)) cl) ->
  Forall2 (entry_of pd) gs cls ->
  flat_map h gs = flat_map (fun p => f (getitem pd p)) (concat cls).
Proof.
  intros Hh H. induction H as [|g cl gs cls Hg _ IH]; simpl; [reflexivity|].
  rewrite flat_map_app, IH, (Hh g cl Hg). reflexivity.
Qed.

Lemma flat_map_keys {A : Type} (pd : plate_data) (f : record -> list A) :
  NoDup (keys pd) ->
  flat_map (fun p => f (getitem pd p)) (keys pd)
  = flat_map (fun kr => f (snd kr)) pd.
Proof.
  intros Hnd.
  assert (H : forall l, incl l pd ->
            flat_map (fun p => f (getitem pd p)) (map fst l)
            = flat_map (fun kr => f (snd kr)) l).
  { induction l as [|[p r] l IH]; intros Hin; simpl; [reflexivity|].
    rewrite (getitem_In pd p r Hnd) by (apply Hin; now left).
    rewrite IH; [reflexivity|]. intros x Hx. apply Hin. now right. }
  apply H, incl_refl.
Qed.

(** X9: grouping neither loses nor duplicates a detection: for every
    threshold, the confidences of all clusters together are exactly the
    confidences of all records, and likewise the frame numbers. *)
Theorem grouping_conserves_detections (pd : plate_data) (thr : Q)
    (Hnd : NoDup (keys pd))
    (Hev : forall p, In p (keys pd) -> confidences (getitem pd p) <> []) :
  exists gs,
    group_similar_plates pd thr = Some gs /\
    Permutation (flat_map all_confidences gs)
      (flat_map (fun kr => confidences (snd kr)) pd) /\
    Permutation (flat_map all_frames gs)
      (flat_map (fun kr => frames (snd kr)) pd).
Proof.
  destruct (clusters_of pd thr Hnd Hev) as (gs & cls & E & Hrel & Hperm).
  exists gs. split; [exact E|]. split.
  - rewrite (entries_data pd confidences all_confidences gs cls);
      [|intros g cl (_ & _ & _ & H & _); exact H | exact Hrel].
    rewrite <- (flat_map_keys pd confidences Hnd).
    apply Permutation_flat_map, Hperm.
  - rewrite (entries_data pd frames all_frames gs cls);
      [|intros g cl (_ & _ & _ & _ & H); exact H | exact Hrel].
    rewrite <- (flat_map_keys pd frames Hnd).
    apply Permutation_flat_map, Hperm.
Qed.

Lemma grouping_conserves_detections_witness :
  exists gs,
    group_similar_plates (snd (parse_lines example_log)) 80 = Some gs /\
    Permutation (flat_map all_confidences gs)
      (flat_map (fun kr => confidences (snd kr))
         (snd (parse_lines example_log))) /\
    Permutation (flat_map all_frames gs)
      (flat_map (fun kr => frames (snd kr)) (snd (parse_lines example_log))).
Proof.
  apply (grouping_conserves_detections (snd (parse_lines example_log)) 80
           (proj1 example_data_ok) (proj2 example_data_ok)).
Defined.

(** *** A threshold of zero or less *)





(** ** The rows of the table *)

(** [r] is the row computed from the cluster entry [g]. *)
Definition row_of (r : row) (g : group) : Prop :=
  plate_found r = main_plate g /\
  similar_plates_str r = join (similar_plates g) /\
  (exists m, mean (all_confidences g) = Some m
             /\ confidence_level r = round2 m) /\
  list_min (all_frames g) = Some (first_frame r) /\
  list_max (all_frames g) = Some (last_frame r) /\
  total_detections r = List.length (all_frames g).

Lemma build_results_rows (gs : list group) (acc : list row) :
  Forall group_ok gs ->
  exists rows,
    fold_left results_step gs (Some acc) = Some (acc ++ rows)%list /\
    Forall2 row_of rows gs.
Proof.
  intros H. revert acc. induction H as [|g gs [Hc Hf] _ IH]; intros acc.
  - exists []. rewrite app_nil_r. split; [reflexivity | constructor].
  - cbn [fold_left results_step].
    destruct (stats_total _ _ Hc Hf) as (m & lo & hi & Em & El & Eh & E).
    rewrite E. destruct (all_frames g) as [|f fs] eqn:Ef; [contradiction|].
    destruct (IH (acc ++ [mkRow (main_plate g) (join (similar_plates g))
                            (round2 m) lo hi (List.length (f :: fs))])%list)
      as (rows & Er & Hrel).
    eexists. split; [rewrite Er, <- app_assoc; reflexivity|].
    constructor; [|exact Hrel].
    unfold row_of. cbn [plate_found similar_plates_str confidence_level
                          first_frame last_frame total_detections].
    rewrite Ef. repeat split; auto. exists m. auto.
Qed.

(** What the pipeline builds from a log that was read. *)
Lemma parsed_rows (lines : list string) (thr : Q) :
  exists gs results,
    group_similar_plates (snd (parse_lines lines)) thr = Some gs /\
    build_results gs = Some results /\
    Forall2 row_of results gs /\
    Forall group_ok gs /\
    Permutation (flat_map all_confidences gs)
      (flat_map (fun kr => confidences (snd kr)) (snd (parse_lines lines))) /\
    Permutation (flat_map all_frames gs)
      (flat_map (fun kr => frames (snd kr)) (snd (parse_lines lines))).
Proof.
  destruct (parse_lines_ok lines) as (_ & Hnd & Hall).
  set (pd := snd (parse_lines lines)) in *.
  assert (Hev : forall p, In p (keys pd) -> has_events pd p).
  { intros p Hp. apply record_ok_has_events; assumption. }
  destruct (group_loop_total pd thr (keys pd) [] [] Hnd Hev)
    as (gs & E & Hok); [constructor|].
  destruct (clusters_of pd thr Hnd (fun p Hp => proj1 (Hev p Hp)))
    as (gs' & cls & E' & Hrel & Hperm).
  unfold group_similar_plates in E'. rewrite E in E'.
  inversion E'; subst gs'.
  destruct (build_results_rows gs [] Hok) as (rows & Er & Hrows).
  exists gs, rows. split; [exact E|]. split; [exact Er|].
  split; [exact Hrows|]. split; [exact Hok|]. split.
  - rewrite (entries_data pd confidences all_confidences gs cls);
      [|intros g cl (_ & _ & _ & H & _); exact H | exact Hrel].
    rewrite <- (flat_map_keys pd confidences Hnd).
    apply Permutation_flat_map, Hperm.
  - rewrite (entries_data pd frames all_frames gs cls);
      [|intros g cl (_ & _ & _ & _ & H); exact H | exact Hrel].
    rewrite <- (flat_map_keys pd frames Hnd).
    apply Permutation_flat_map, Hperm.
Qed.

Lemma fold_min_spec (l : list Z) (x : Z) :
  (In (fold_left Z.min l x) (x :: l)) /\
  (forall y, In y (x :: l) -> (fold_left Z.min l x <= y)%Z).
Proof.
  revert x. induction l as [|a l IH]; intros x; simpl.
  - split; [now left | intros y [<-|[]]; lia].
  - destruct (IH (Z.min x a)) as [H1 H2]. split.
    + destruct H1 as [H1|H1]; [|now right; right].
      rewrite <- H1. destruct (Z.min_spec x a) as [[_ ->]|[_ ->]]; auto.
    + intros y [<-|[<-|Hy]].
      * specialize (H2 (Z.min x a) (or_introl eq_refl)). lia.
      * specialize (H2 (Z.min x a) (or_introl eq_refl)). lia.
      * apply H2. now right.
Qed.

Lemma fold_max_spec (l : list Z) (x : Z) :
  (In (fold_left Z.max l x) (x :: l)) /\
  (forall y, In y (x :: l) -> (y <= fold_left Z.max l x)%Z).
Proof.
  revert x. induction l as [|a l IH]; intros x; simpl.
  - split; [now left | intros y [<-|[]]; lia].
  - destruct (IH (Z.max x a)) as [H1 H2]. split.
    + destruct H1 as [H1|H1]; [|now right; right].
      rewrite <- H1. destruct (Z.max_spec x a) as [[_ ->]|[_ ->]]; auto.
    + intros y [<-|[<-|Hy]].
      * specialize (H2 (Z.max x a) (or_introl eq_refl)). lia.
      * specialize (H2 (Z.max x a) (or_introl eq_refl)). lia.
      * apply H2. now right.
Qed.

Lemma list_min_spec (l : list Z) (lo : Z) :
  list_min l = Some lo -> In lo l /\ forall y, In y l -> (lo <= y)%Z.
Proof.
  destruct l as [|x l]; [discriminate|]. intros E. inversion E; subst.
  apply fold_min_spec.
Qed.

Lemma list_max_spec (l : list Z) (hi : Z) :
  list_max l = Some hi -> In hi l /\ forall y, In y l -> (y <= hi)%Z.
Proof.
  destruct l as [|x l]; [discriminate|]. intros E. inversion E; subst.
  apply fold_max_spec.
Qed.

Lemma sum_fold_nonneg (l : list Q) (acc : Q) :
  (0 <= acc)%Q -> Forall (fun c => 0 <= c)%Q l ->
  (0 <= fold_left Qplus l acc)%Q.
Proof.
  revert acc. induction l as [|x l IH]; intros acc Ha H; simpl; [exact Ha|].
  inversion H; subst. apply IH; [|assumption].
  rewrite <- (Qplus_0_l 0). apply Qplus_le_compat; assumption.
Qed.

Lemma mean_nonneg (l : list Q) (m : Q) :
  Forall (fun c => 0 <= c)%Q l -> mean l = Some m -> (0 <= m)%Q.
Proof.
  intros H E. destruct l as [|x l]; [discriminate|].
  inversion E; subst. apply Qle_shift_div_l.
  - change 0%Q with (inject_Z 0). rewrite <- Zlt_Qlt. simpl. lia.
  - rewrite Qmult_0_l. apply sum_fold_nonneg; [apply Qle_refl | exact H].
Qed.

Lemma round2_nonneg (x : Q) : (0 <= x)%Q -> (0 <= round2 x)%Q.
Proof.
  intros H. unfold round2, Qle. cbn [Qnum Qden].
  assert (Hf : (0 <= Qfloor (x * 100))%Z).
  { change 0%Z with (Qfloor 0). apply Qfloor_resp_le.
    apply Qmult_le_0_compat; [exact H | discriminate]. }
  unfold round_half_even.
  destruct (Qcompare (x * 100 - inject_Z (Qfloor (x * 100))) (1 # 2));
    [destruct (Z.even (Qfloor (x * 100)))| |]; lia.
Qed.

(** X11: every row of the table is well formed: its first frame is not
    negative and not greater than its last frame; it counts at least one
    detection; its confidence level is not negative. *)
Theorem table_rows_are_well_formed (S : PandasSort) (lines : list string)
    (file_path : string) (thr : Q) :
  exists rows,
    parse_license_plate_log (fun _ => ReadOk lines) file_path thr
    = ([], Some rows) /\
    forall r, In r rows ->
      (0 <= first_frame r <= last_frame r)%Z /\
      (1 <= total_detections r)%nat /\
      (0 <= confidence_level r)%Q.
Proof.
  destruct (parsed_rows lines thr)
    as (gs & results & Eg & Eb & Hrows & Hok & Hpc & Hpf).
  exists (table results).
  split; [apply (parse_read_ok _ file_path thr lines gs results
                   eq_refl Eg Eb)|].
  intros r Hr.
  apply (Permutation_in _ (Permutation_sym (table_perm results))) in Hr.
  destruct (parse_lines_ok lines) as (_ & _ & Hall).
  assert (Hg : exists g, In g gs /\ row_of r g).
  { clear - Hrows Hr. induction Hrows as [|r0 g0 rs gs0 H0 _ IH].
    - destruct Hr.
    - destruct Hr as [<-|Hr].
      + exists g0. split; [now left | exact H0].
      + destruct (IH Hr) as (g & Hg & Hrel). exists g. split; auto.
        now right. }
  destruct Hg as (g & Hg & _ & _ & (m & Em & Ec) & Elo & Ehi & En).
  destruct (list_min_spec _ _ Elo) as [Hlo1 Hlo2].
  destruct (list_max_spec _ _ Ehi) as [Hhi1 Hhi2].
  assert (Hfr : forall f, In f (all_frames g) -> (0 <= f)%Z).
  { intros f Hf.
    assert (Hin : In f (flat_map all_frames gs)).
    { apply in_flat_map. exists g. auto. }
    apply (Permutation_in _ Hpf) in Hin. apply in_flat_map in Hin.
    destruct Hin as ([p rec] & Hrec & Hf').
    rewrite Forall_forall in Hall.
    destruct (Hall (p, rec) Hrec) as (_ & _ & _ & H4).
    rewrite Forall_forall in H4. apply H4. exact Hf'. }
  assert (Hcf : Forall (fun c => 0 <= c)%Q (all_confidences g)).
  { apply Forall_forall. intros c Hc.
    assert (Hin : In c (flat_map all_confidences gs)).
    { apply in_flat_map. exists g. auto. }
    apply (Permutation_in _ Hpc) in Hin. apply in_flat_map in Hin.
    destruct Hin as ([p rec] & Hrec & Hc').
    rewrite Forall_forall in Hall.
    destruct (Hall (p, rec) Hrec) as (_ & _ & H3 & _).
    rewrite Forall_forall in H3. apply H3. exact Hc'. }
  split; [split; [apply Hfr, Hlo1 | apply Hlo2, Hhi1]|]. split.
  - rewrite En. destruct (all_frames g); [destruct Hlo1 | simpl; lia].
  - rewrite Ec. apply round2_nonneg. apply (mean_nonneg _ _ Hcf Em).
Qed.

(** ** The statistics block

    [main] prints, and [save_report] writes, four figures computed from the
    table: the mean, the maximum and the minimum of the column
    [confidence_level], each formatted with two decimals, and the sum of
    the column [total_detections].  Both do so for a non-empty table
    only. *)




















(** ** What [main] does with a log that was read *)



Lemma representatives_NoDup (gs : list group) :
  NoDup (flat_map members gs) -> NoDup (map main_plate gs).
Proof.
  induction gs as [|g gs IH]; simpl; intros H; [constructor|].
  inversion H as [|? ? Hn Hnd]; subst.
  apply NoDup_app_remove_l in Hnd. constructor; [|apply IH, Hnd].
  intros Hin. apply Hn. apply in_or_app. right.
  apply in_map_iff in Hin. destruct Hin as (g' & E & Hg').
  apply in_flat_map. exists g'. split; [exact Hg'|]. left. exact E.
Qed.

Lemma rows_plates (results : list row) (gs : list group) :
  Forall2 row_of results gs -> map plate_found results = map main_plate gs.
Proof.
  induction 1 as [|r g rs gs0 (E & _) _ IH]; simpl; [reflexivity|].
  rewrite E, IH. reflexivity.
Qed.

(** X15: no plate text labels two rows of the table, and every label is a
    plate text read from the log. *)
Theorem table_plates_are_distinct_texts_of_the_log (S : PandasSort)
    (lines : list string) (file_path : string) (thr : Q) :
  exists rows,
    parse_license_plate_log (fun _ => ReadOk lines) file_path thr
    = ([], Some rows) /\
    NoDup (map plate_found rows) /\
    incl (map plate_found rows) (keys (snd (parse_lines lines))).
Proof.
  destruct (parse_lines_ok lines) as (_ & Hnd & Hall).
  set (pd := snd (parse_lines lines)) in *.
  assert (Hev : forall p, In p (keys pd) -> confidences (getitem pd p) <> []).
  { intros p Hp. apply (record_ok_has_events pd p Hall Hp). }
  destruct (clusters_of pd thr Hnd Hev) as (gs & cls & Eg & Hrel & Hperm).
  assert (Hm : Permutation (flat_map members gs) (keys pd)).
  { rewrite <- Hperm. apply (entries_members pd); [|exact Hrel].
    intros p Hp. apply Hev. apply (Permutation_in _ Hperm Hp). }
  destruct (parsed_rows lines thr) as (gs' & results & Eg' & Eb & Hrows & _).
  fold pd in Eg'. rewrite Eg in Eg'. inversion Eg'; subst gs'.
  exists (table results).
  split; [apply (parse_read_ok _ file_path thr lines gs results
                   eq_refl Eg Eb)|].
  assert (Hp : Permutation (map main_plate gs)
                 (map plate_found (table results))).
  { rewrite <- (rows_plates results gs Hrows).
    apply Permutation_map, table_perm. }
  split.
  - apply (Permutation_NoDup Hp). apply representatives_NoDup.
    apply (Permutation_NoDup (Permutation_sym Hm) Hnd).
  - intros p Hin. apply (Permutation_in _ (Permutation_sym Hp)) in Hin.
    apply (Permutation_in _ Hm). apply in_map_iff in Hin.
    destruct Hin as (g & <- & Hg). apply in_flat_map.
    exists g. split; [exact Hg | now left].
Qed.

(** ** The non-grouping variants *)

Lemma v2_build_results (pd : plate_data) (acc : list V2.row) :
  Forall (fun kr => record_ok (snd kr)) pd ->
  exists rows,
    fold_left V2.results_step pd (Some acc) = Some (acc ++ rows)%list /\
    map V2.plate_found rows = keys pd /\
    Forall (fun r => (V2.first_frame r <= V2.last_frame r)%Z) rows.
Proof.
  intros H. revert acc. induction H as [|[p r] pd Hr _ IH]; intros acc.
  - exists []. rewrite app_nil_r. repeat split; constructor.
  - cbn [fold_left V2.results_step].
    unfold record_ok in Hr. cbn [snd] in Hr. destruct Hr as (H1 & H2 & _).
    assert (Hf0 : frames r <> []).
    { destruct (frames r); [simpl in H2; lia | discriminate]. }
    assert (Hc0 : confidences r <> []).
    { destruct (confidences r), (frames r); simpl in *;
        try lia; discriminate. }
    destruct (stats_total (confidences r) (frames r) Hc0 Hf0)
      as (m & lo & hi & _ & El & Eh & E).
    rewrite E.
    destruct (frames r) as [|f fs] eqn:Ef; [contradiction|].
    destruct (IH (acc ++ [V2.mkRow p (round2 m) lo hi
                            (List.length (f :: fs))])%list)
      as (rows & Er & Hk & Hf).
    eexists. split; [rewrite Er, <- app_assoc; reflexivity|].
    split; [simpl; rewrite Hk; reflexivity|].
    constructor; [|exact Hf]. cbn [V2.first_frame V2.last_frame].
    destruct (list_min_spec _ _ El) as [_ Hlo].
    destruct (list_max_spec _ _ Eh) as [Hhi _]. apply Hlo, Hhi.
Qed.


(** [DataFrame.sort_values('first_frame')] of the first variant
    ([scripts/summarize_plates.py]): ascending, on an integer column, with
    the default [kind]. *)
Class PandasSortInt : Type := {
  argsort_asc : list Z -> list nat;
  argsort_asc_perm :
    forall ks, Permutation (argsort_asc ks) (seq 0 (List.length ks));
  argsort_asc_sorted :
    forall ks, Sorted Z.le (take ks (argsort_asc ks))
}.

Module V1.

(** [parse_license_plate_log(file_path)] of the first variant: the same
    reading, aggregation and summary loops as the second, and a sort by
    [first_frame]. *)
Definition parse_license_plate_log {S : PandasSortInt} (fs : filesystem)
    (file_path : string) : io (list V2.row) :=
  match fs file_path with
  | FileNotFound => emit (PrintFileNotFound file_path) ;;; ret []
  | ReadError read =>
      let _ := parse_lines read in
      emit PrintReadError ;;; ret []
  | ReadOk lines =>
      let '(_, pd) := parse_lines lines in
      results <- lift (V2.build_results pd) ;;
      match results with
      | [] => ret []
      | _ => ret (take results (argsort_asc (map V2.first_frame results)))
      end
  end.

End V1.

Lemma sorted_neg (l : list Z) :
  descending (map (fun z => inject_Z (- z)) l) -> Sorted Z.le l.
Proof.
  unfold descending. induction l as [|x l IH]; intros H; [constructor|].
  cbn [map] in H. inversion H as [|? ? Hs Hhd]; subst.
  constructor; [apply IH, Hs|].
  destruct l as [|y l]; constructor.
  cbn [map] in Hhd. inversion Hhd as [|? ? Hle]; subst.
  rewrite <- Zle_Qle in Hle. lia.
Qed.

(** The interface is met, for instance by a stable sort of the negated
    keys. *)
Definition stable_sort_int : PandasSortInt.
Proof.
  refine {| argsort_asc :=
              fun ks => argsort_desc_stable
                          (map (fun z => inject_Z (- z)) ks) |}.
  - intros ks.
    rewrite <- (length_map (fun z => inject_Z (- z)) ks).
    apply (argsort_perm (PandasSort := stable_sort)).
  - intros ks. apply sorted_neg. rewrite take_map.
    apply (argsort_sorted (PandasSort := stable_sort)).
Defined.

(** X17: the first variant returns the rows of the second variant, in
    ascending order of first frame. *)
Theorem first_variant_is_the_second_sorted_by_first_frame
    (S1 : PandasSortInt) (S2 : PandasSort) (lines : list string)
    (file_path : string) :
  exists rows1 rows2,
    V1.parse_license_plate_log (fun _ => ReadOk lines) file_path
    = ([], Some rows1) /\
    V2.parse_license_plate_log (fun _ => ReadOk lines) file_path
    = ([], Some rows2) /\
    Permutation rows1 rows2 /\
    Sorted Z.le (map V2.first_frame rows1).
Proof.
  destruct (parse_lines_ok lines) as (_ & _ & Hall).
  destruct (v2_build_results _ [] Hall) as (results & Er & _).
  unfold V1.parse_license_plate_log, V2.parse_license_plate_log,
    V2.build_results.
  destruct (parse_lines lines) as [cf pd]. cbn [snd] in *.
  rewrite Er. unfold lift, bind, ret. cbn [app].
  destruct results as [|r results].
  - exists [], []. repeat split; constructor.
  - exists (take (r :: results)
              (argsort_asc (map V2.first_frame (r :: results)))),
           (sort_values V2.confidence_level (r :: results)).
    split; [reflexivity|]. split; [reflexivity|]. split.
    + rewrite <- (sort_values_perm V2.confidence_level (r :: results)).
      symmetry. apply take_perm.
      rewrite <- (length_map V2.first_frame). apply argsort_asc_perm.
    + rewrite take_map. apply argsort_asc_sorted.
Qed.

(** ** [main] of the grouping variant, from the command line

    The part of [main] that resolves [input_file] and
    [similarity_threshold] from [sys.argv] or from two [input()] prompts,
    before the part modelled by [main] above. *)

(** A Python float. *)
Inductive pyfloat : Type :=
| Finite (q : Q)
| PlusInfinity
| MinusInfinity
| NotANumber.

Module Cli.

Inductive console : Type :=
| PromptPath
| PromptThreshold
| NoPathProvided
| WarnThresholdRange
| WarnThresholdInvalid
| Run (input_file : string) (similarity_threshold : Q) (outcome : io unit).

Section Main.

(** The builtin [float(s)] on a string; [None] is [ValueError].  Its
    syntax is not modelled. *)
Variable float_of : string -> option pyfloat.

Context {S : PandasSort}.
Variable fs : filesystem.

(** [0 <= similarity_threshold <= 100] *)
Definition in_range (x : pyfloat) : option Q :=
  match x with
  | Finite q => if Qle_bool 0 q && Qle_bool q 100 then Some q else None
  | _ => None
  end.

(** The [try: ... except ValueError: ...] block that both branches
    contain. *)
Definition threshold_of (text : string) : list console * Q :=
  match float_of text with
  | Some x =>
      match in_range x with
      | Some q => ([], q)
      | None => ([WarnThresholdRange], 80)
      end
  | None => ([WarnThresholdInvalid], 80)
  end.

(** [stdin] holds the lines [input()] will return; [None] is the
    [EOFError] of a missing line. *)
Definition main (argv stdin : list string) : option (list console) :=
  match argv with
  | _ :: input_file :: rest =>
      match rest with
      | text :: _ =>
          let '(w, thr) := threshold_of text in
          Some (w ++ [Run input_file thr (main fs input_file thr)])%list
      | [] => Some [Run input_file 80 (main fs input_file 80)]
      end
  | _ =>
      match stdin with
      | [] => None
      | answer :: stdin' =>
          let input_file := strip answer in
          if String.eqb input_file "" then Some [PromptPath; NoPathProvided]
          else
            match stdin' with
            | [] => None
            | answer' :: _ =>
                let threshold_input := strip answer' in
                if String.eqb threshold_input ""
                then Some [PromptPath; PromptThreshold;
                           Run input_file 80 (main fs input_file 80)]
                else
                  let '(w, thr) := threshold_of threshold_input in
                  Some (PromptPath :: PromptThreshold :: w
                        ++ [Run input_file thr (main fs input_file thr)])%list
            end
      end
  end.


End Main.

End Cli.



(** ** The capture loop of [python/openalpr_camera.py] *)

Module Camera.

Definition FRAME_SKIP : nat := 15.

Record point : Type := mkPoint { x : Z; y : Z }.

Record candidate : Type := mkCandidate { plate : string; confidence : Q }.

(** One element of [results['results']]. *)
Record plate_result : Type := mkPlate {
  coordinates : list point;
  candidates : list candidate
}.

Inductive effect : Type :=
| Recognize (frame_number : nat)
| Polylines (pts : list point)
| PrintPlate (text : string) (confidence : Q)
| Imshow (frame_number : nat)
| PrintReadFailed.

Section Loop.

Variable frame : Type.

(** [alpr.recognize_ndarray(frame)['results']] *)
Variable recognize_ndarray : frame -> list plate_result.

(** [str.upper] *)
Variable upper : string -> string.

(** The key code [cv2.waitKey(1)] returns after frame [n] is shown. *)
Variable waitKey : nat -> Z.

(** [for plate in results['results']:]; [None] is the [IndexError] of a
    plate without candidates. *)
Fixpoint show_plates (plates : list plate_result) : option (list effect) :=
  match plates with
  | [] => Some []
  | p :: rest =>
      let draw := match coordinates p with
                  | [] => []
                  | box => [Polylines box]
                  end in
      match candidates p with
      | [] => None
      | best_candidate :: _ =>
          match show_plates rest with
          | None => None
          | Some t =>
              Some (draw ++ PrintPlate (upper (plate best_candidate))
                                (confidence best_candidate) :: t)%list
          end
      end
  end.

(** [while True:]; [video] holds the frames [cap.read()] delivers before
    it fails. *)
Fixpoint capture_loop (video : list frame) (_frame_number : nat)
  : option (list effect) :=
  match video with
  | [] => Some [PrintReadFailed]
  | f :: rest =>
      let n := S _frame_number in
      if negb (n mod FRAME_SKIP =? 0)%nat then capture_loop rest n
      else
        match show_plates (recognize_ndarray f) with
        | None => None
        | Some t =>
            if (waitKey n =? 27)%Z
            then Some (Recognize n :: t ++ [Imshow n])%list
            else
              match capture_loop rest n with
              | None => None
              | Some t' => Some (Recognize n :: t ++ Imshow n :: t')%list
              end
        end
  end.

(** The frame numbers handed to the recogniser. *)
Definition recognized (t : list effect) : list nat :=
  flat_map (fun e => match e with
                     | Recognize n => [n]
                     | _ => []
                     end) t.

Lemma show_plates_recognized (plates : list plate_result) (t : list effect) :
  show_plates plates = Some t -> recognized t = [].
Proof.
  revert t. induction plates as [|p plates IH]; intros t H; simpl in H.
  - inversion H. reflexivity.
  - destruct (candidates p) as [|c cs]; [discriminate|].
    destruct (show_plates plates) as [t'|]; [|discriminate].
    inversion H; subst. unfold recognized. rewrite flat_map_app.
    cbn [flat_map app]. fold (recognized t'). rewrite (IH t' eq_refl).
    destruct (coordinates p); reflexivity.
Qed.

Definition due (n : nat) : bool := (n mod FRAME_SKIP =? 0)%nat.

Lemma capture_loop_recognized (video : list frame) (k : nat)
    (t : list effect) :
  capture_loop video k = Some t ->
  exists m, (m <= List.length video)%nat /\
            recognized t = filter due (seq (S k) m) /\
            ((forall n, waitKey n <> 27%Z) -> m = List.length video).
Proof.
  revert k t. induction video as [|f video IH]; intros k t H.
  - simpl in H. inversion H; subst. exists 0%nat. repeat split; auto.
  - cbn [capture_loop] in H. fold (due (S k)) in H.
    destruct (due (S k)) eqn:Ed; cbn [negb] in H.
    + destruct (show_plates (recognize_ndarray f)) as [tp|] eqn:Ep;
        [|discriminate].
      pose proof (show_plates_recognized _ _ Ep) as Hp.
      destruct (Z.eqb_spec (waitKey (S k)) 27) as [Ek|Ek].
      * inversion H; subst. exists 1%nat. split; [simpl; lia|]. split.
        -- unfold recognized. cbn [flat_map app]. rewrite flat_map_app.
           fold (recognized tp). rewrite Hp. cbn [seq filter].
           rewrite Ed. reflexivity.
        -- intros Hno. exfalso. apply (Hno (S k) Ek).
      * destruct (capture_loop video (S k)) as [t'|] eqn:El; [|discriminate].
        inversion H; subst.
        destruct (IH (S k) t' El) as (m & Hm & Hr & Hall).
        exists (S m). split; [simpl; lia|]. split.
        -- unfold recognized. cbn [flat_map app]. rewrite flat_map_app.
           fold (recognized tp). rewrite Hp. cbn [flat_map app].
           fold (recognized t'). rewrite Hr. cbn [seq filter].
           rewrite Ed. reflexivity.
        -- intros Hno. rewrite (Hall Hno). reflexivity.
    + destruct (IH (S k) t H) as (m & Hm & Hr & Hall).
      exists (S m). split; [simpl; lia|]. split.
      * rewrite Hr. cbn [seq filter]. rewrite Ed. reflexivity.
      * intros Hno. rewrite (Hall Hno). reflexivity.
Qed.

End Loop.

End Camera.

(** X19: the capture loop hands to the recogniser only frames whose number
    is a multiple of 15, in order and without a gap: the multiples of 15
    among the first [m] frames, where [m] is the whole video when the
    escape key is never pressed. *)
Theorem only_every_fifteenth_frame_is_recognized (frame : Type)
    (recognize_ndarray : frame -> list Camera.plate_result)
    (upper : string -> string) (waitKey : nat -> Z)
    (video : list frame) (t : list Camera.effect)
    (H : Camera.capture_loop frame recognize_ndarray upper waitKey video 0
         = Some t) :
  exists m,
    (m <= List.length video)%nat /\
    Camera.recognized t
    = filter (fun n => (n mod 15 =? 0)%nat) (seq 1 m) /\
    ((forall n, waitKey n <> 27%Z) -> m = List.length video).
Proof.
  apply (Camera.capture_loop_recognized frame recognize_ndarray upper
           waitKey video 0 t H).
Qed.

Lemma only_every_fifteenth_frame_is_recognized_witness :
  exists m,
    (m <= List.length (repeat tt 31))%nat /\
    Camera.recognized
      [Camera.Recognize 15; Camera.Imshow 15; Camera.Recognize 30;
       Camera.Imshow 30; Camera.PrintReadFailed]
    = filter (fun n => (n mod 15 =? 0)%nat) (seq 1 m) /\
    ((forall n, (fun _ : nat => (-1)%Z) n <> 27%Z) ->
     m = List.length (repeat tt 31)).
Proof.
  apply (only_every_fifteenth_frame_is_recognized unit (fun _ => [])
           (fun s => s) (fun _ => (-1)%Z) (repeat tt 31)).
  vm_compute. reflexivity.
Defined.

(** ** The names of the output files *)







